(** * YouTube comment scraper: a shallow embedding of [youtube_with_replies.py]

    The development follows the source file function by function:
    [parse_duration], [get_video_details], [search_videos],
    [get_video_comments] and [scrape_comments].  Text is modelled as
    [string] (ASCII), Python integers as [Z], dictionaries with optional
    keys as records with [option] fields, and the remote service as a
    snapshot that answers every request with a finite paged listing or an
    [HttpError]. *)

From stdpp Require Import gmap strings list.
From Stdlib Require Import ZArith Lia Permutation Ascii Sorted.
From Stdlib Require DecimalString DecimalNat DecimalFacts.

Local Open Scope string_scope.
Local Open Scope Z_scope.
Local Open Scope list_scope.
Local Open Scope stdpp_scope.

(* ===================================================================== *)
(** ** The duration parser *)
(* ===================================================================== *)

Module Duration.

(** The fragment of Python's [re] syntax that the pattern of
    [parse_duration] uses.  [Digits g] is the capturing group [(\d+)]
    numbered [g]; [Opt r] is the greedy optional group [(?:r)?]. *)
Inductive regex : Type :=
| Eps
| Lit (c : ascii)
| Digits (g : nat)
| Opt (r : regex)
| Cat (r1 r2 : regex).

Definition is_digit (c : ascii) : bool :=
  ((48 <=? nat_of_ascii c) && (nat_of_ascii c <=? 57))%nat.

Definition snoc (s : string) (c : ascii) : string := s +:+ String c "".

(** [\d+] with backtracking: the longest run of digits is tried first,
    then every shorter non-empty one. [taken] holds the digits consumed
    so far. *)
Fixpoint greedy_digits {A} (taken s : string)
    (k : string -> string -> option A) : option A :=
  let stop := match taken with
              | "" => None
              | _ => k taken s
              end in
  match s with
  | String c s' =>
      if is_digit c then
        match greedy_digits (snoc taken c) s' k with
        | Some r => Some r
        | None => stop
        end
      else stop
  | "" => stop
  end.

Abbreviation groups := (gmap nat string).

(** A backtracking matcher in continuation-passing style: [k] is what
    remains to be matched after [r]; [None] makes the matcher try its
    next alternative. *)
Fixpoint rmatch {A} (r : regex) (s : string) (gs : groups)
    (k : string -> groups -> option A) : option A :=
  match r with
  | Eps => k s gs
  | Lit c =>
      match s with
      | String c' s' => if Ascii.eqb c c' then k s' gs else None
      | "" => None
      end
  | Digits g => greedy_digits "" s (fun d s' => k s' (<[g:=d]> gs))
  | Opt r1 =>
      match rmatch r1 s gs k with
      | Some x => Some x
      | None => k s gs
      end
  | Cat r1 r2 => rmatch r1 s gs (fun s' gs' => rmatch r2 s' gs' k)
  end.

(** [re.match]: anchored at the start of the text, not at its end.  The
    result holds the groups and the text left after the match. *)
Definition re_match (r : regex) (s : string) : option (groups * string) :=
  rmatch r s ∅ (fun s' gs => Some (gs, s')).

(** [r"PT(?:(\d+)H)?(?:(\d+)M)?(?:(\d+)S)?"] *)
Definition pattern : regex :=
  Cat (Lit "P") (Cat (Lit "T")
    (Cat (Opt (Cat (Digits 1) (Lit "H")))
      (Cat (Opt (Cat (Digits 2) (Lit "M")))
           (Opt (Cat (Digits 3) (Lit "S")))))).

Definition digit_value (c : ascii) : Z := Z.of_nat (nat_of_ascii c) - 48.

Fixpoint int_acc (acc : Z) (s : string) : Z :=
  match s with
  | "" => acc
  | String c s' => int_acc (10 * acc + digit_value c) s'
  end.

(** The value of [int(text)] on a string of decimal digits, where [int]
    returns one; its refusal of long numerals is in [DurationLimit]. *)
Definition int (s : string) : Z := int_acc 0 s.

(** [int(match.group(g) or 0)] *)
Definition group_or_0 (gs : groups) (g : nat) : Z :=
  match gs !! g with
  | None | Some "" => 0
  | Some d => int d
  end.

(** [parse_duration(duration)]; [None] is Python's [None]. *)
Definition parse_duration (duration : option string) : Z :=
  match duration with
  | None | Some "" => 0
  | Some d =>
      match re_match pattern d with
      | None => 0
      | Some (gs, _) =>
          let hours := group_or_0 gs 1 in
          let minutes := group_or_0 gs 2 in
          let seconds := group_or_0 gs 3 in
          hours * 3600 + minutes * 60 + seconds
      end
  end.

(** *** A direct scanner, equal to the backtracking matcher on [pattern] *)

(** The maximal run of digits at the head of [s], and what follows it. *)
Fixpoint span_digits (s : string) : string * string :=
  match s with
  | String c s' =>
      if is_digit c then
        let (d, r) := span_digits s' in (String c d, r)
      else ("", s)
  | "" => ("", "")
  end.

(** One optional component [(?:(\d+)u)?] read at the head of [s]. *)
Definition component (u : ascii) (s : string) : option string * string :=
  let (d, r) := span_digits s in
  match d, r with
  | String _ _, String c r' => if Ascii.eqb u c then (Some d, r') else (None, s)
  | _, _ => (None, s)
  end.

Definition scan (s : string)
  : option (option string * option string * option string * string) :=
  match s with
  | String p (String t s0) =>
      if Ascii.eqb "P" p && Ascii.eqb "T" t then
        let (h, s1) := component "H" s0 in
        let (m, s2) := component "M" s1 in
        let (sec, s3) := component "S" s2 in
        Some (h, m, sec, s3)
      else None
  | _ => None
  end.

Definition value (d : option string) : Z :=
  match d with
  | Some ds => int ds
  | None => 0
  end.

(** *** Well-formed tokens, as the grammar [PT[nH][nM][nS]] *)

Fixpoint all_digits (s : string) : bool :=
  match s with
  | "" => true
  | String c s' => is_digit c && all_digits s'
  end.

Definition digit_string (d : string) : Prop := d <> "" /\ all_digits d = true.

Definition valid_component (d : option string) : Prop :=
  match d with
  | Some ds => digit_string ds
  | None => True
  end.

Definition render_component (d : option string) (u : ascii) : string :=
  match d with
  | Some ds => ds +:+ String u ""
  | None => ""
  end.

Definition token (h m s : option string) : string :=
  "PT" +:+ render_component h "H" +:+ render_component m "M"
       +:+ render_component s "S".

Definition valid_token (t : string) : Prop :=
  exists h m s,
    valid_component h /\ valid_component m /\ valid_component s /\
    t = token h m s.

(** The decimal numeral of a natural number, as Python's [str] prints it. *)
Definition decimal (n : nat) : string :=
  DecimalString.NilEmpty.string_of_uint (Nat.to_uint n).

Definition token_of (h m s : option nat) : string :=
  token (decimal <$> h) (decimal <$> m) (decimal <$> s).

Definition seconds_of (h m s : option nat) : Z :=
  Z.of_nat (default 0%nat h) * 3600 + Z.of_nat (default 0%nat m) * 60
  + Z.of_nat (default 0%nat s).

(** The groups after an optional component has been read. *)
Definition with_group (g : nat) (d : option string) (gs : groups) : groups :=
  match d with
  | Some ds => <[g:=ds]> gs
  | None => gs
  end.

End Duration.

(* ===================================================================== *)
(** ** Effects: printing, sleeping, remote calls, and [HttpError] *)
(* ===================================================================== *)

(** What a remote call, or a block of statements, ends with: a value, or
    a raised [HttpError] carrying [str(e)]. *)
Inductive outcome (A : Type) : Type :=
| Done (a : A)
| Raised (e : string).
Arguments Done {A} a.
Arguments Raised {A} e.

(** A paginated listing as the client walks it: executing the request
    fails, or yields the last page (no [nextPageToken]), or yields a page
    and a request for the next one.  [items] is [None] when the response
    has no ["items"] key. *)
Inductive paged (A : Type) : Type :=
| Fails (e : string)
| Last (items : option (list A))
| More (items : option (list A)) (next : paged A).
Arguments Fails {A} e.
Arguments Last {A} items.
Arguments More {A} items next.

Inductive request : Type :=
| SearchList (q : string) (maxResults : Z)
| VideosList (id : string)
| CommentThreadsList (videoId : string)
| CommentsList (parentId : string).

(** The lines the program prints, one constructor per [print]. *)
Inductive message : Type :=
| MsgDetailsError (e : string)
| MsgSearchError (e : string)
| MsgRepliesError (comment_id e : string)
| MsgCollected (comment_count reply_count : Z)
| MsgCommentsDisabled (video_id : string)
| MsgVideoError (video_id e : string)
| MsgNoApiKey
| MsgSearching (query : string)
| MsgNoVideosFound
| MsgFound (n : nat)
| MsgProcessing (i n : nat) (title : string)
| MsgItems (n : nat) (top_comments replies : Z)
| MsgSuccess (total_top_comments total_replies : Z)
| MsgTotalItems (n : nat)
| MsgSavedTo (output_file : string)
| MsgNoCommentsCollected.

(** [Sleep] is [time.sleep], in milliseconds; [Execute] is one
    [request.execute()]. *)
Inductive effect : Type :=
| Print (m : message)
| Sleep (ms : Z)
| Execute (r : request).

(** Statements over local state [S]: the state survives a raised
    [HttpError], as Python's mutable locals do. *)
Definition M (S A : Type) : Type := S -> S * outcome A.

Definition ret {S A} (a : A) : M S A := fun s => (s, Done a).

Definition bind {S A B} (m : M S A) (k : A -> M S B) : M S B :=
  fun s => match m s with
           | (s', Done a) => k a s'
           | (s', Raised e) => (s', Raised e)
           end.

Definition raise {S A} (e : string) : M S A := fun s => (s, Raised e).

Definition get {S} : M S S := fun s => (s, Done s).

Definition modify {S} (f : S -> S) : M S unit := fun s => (f s, Done tt).

(** [try: m except HttpError as e: h e] *)
Definition try_except {S A} (m : M S A) (h : string -> M S A) : M S A :=
  fun s => match m s with
           | (s', Raised e) => h e s'
           | r => r
           end.

Declare Scope prog_scope.
Delimit Scope prog_scope with prog.
Notation "x <- m ;; k" := (bind m (fun x => k))
  (at level 100, m at next level, right associativity) : prog_scope.
Notation "m ;;; k" := (bind m (fun _ => k))
  (at level 100, right associativity) : prog_scope.

(** [for x in l: body x] *)
Fixpoint for_each {S A} (l : list A) (body : A -> M S unit) : M S unit :=
  match l with
  | [] => ret tt
  | x :: l' => (body x ;;; for_each l' body)%prog
  end.

(** The items a client meets when it walks a listing page by page until
    a request fails or the pages run out, and the error that ends the
    walk, if any. *)
Fixpoint reached {A} (p : paged A) : list A :=
  match p with
  | Fails _ => []
  | Last items => default [] items
  | More items next => default [] items ++ reached next
  end.

Fixpoint failure {A} (p : paged A) : option string :=
  match p with
  | Fails e => Some e
  | Last _ => None
  | More _ next => failure next
  end.

(* ===================================================================== *)
(** ** The remote service *)
(* ===================================================================== *)

Module Snippet.
(** The ["snippet"] of a comment resource. *)
Record t := mk {
    authorDisplayName : string;
    textDisplay : string;
    likeCount : Z;
    publishedAt : string }.
End Snippet.

Module Reply.
(** A comment resource, as found inline under ["replies"]["comments"]
      and in the items of [comments().list]. *)
Record t := mk { id : string; snippet : Snippet.t }.
End Reply.

Module Thread.
(** An item of [commentThreads().list].  [topLevelComment] is
      [item["snippet"]["topLevelComment"]["snippet"]]; [totalReplyCount]
      is [None] when the key is absent; [replies] is [None] when the
      item has no ["replies"] key and [Some None] when that object has no
      ["comments"] key. *)
Record t := mk {
    id : string;
    topLevelComment : Snippet.t;
    totalReplyCount : option Z;
    replies : option (option (list Reply.t)) }.
End Thread.

Module SearchResult.
(** An item of [search().list]: [item["id"]["videoId"]] and the fields
      of [item["snippet"]]. *)
Record t := mk {
    videoId : string;
    title : string;
    channelTitle : string;
    publishedAt : string }.
End SearchResult.

Module VideoResource.
(** An item of [videos().list].  The statistics are the integers that
      [int] reads from the decimal strings of the response. *)
Record statistics := mk_statistics {
    viewCount : option Z;
    likeCount : option Z;
    commentCount : option Z }.
Record t := mk {
    id : string;
    stats : option statistics;
    duration : option (option string);
    description : option string }.
End VideoResource.

(** The service object returned by [build]: each request is answered
    from a fixed snapshot. *)
Record youtube : Type := {
  search_list : string -> Z -> outcome (option (list SearchResult.t));
  videos_list : string -> outcome (option (list VideoResource.t));
  commentThreads_list : string -> paged Thread.t;
  comments_list : string -> paged Reply.t }.

(* ===================================================================== *)
(** ** Records of the program *)
(* ===================================================================== *)

Module Comment.
(** The dictionary built for a comment or a reply by
      [get_video_comments]. *)
Record t := mk {
    video_id : string;
    comment_id : string;
    parent_id : option string;
    is_reply : bool;
    author : string;
    comment_text : string;
    comment_like_count : Z;
    comment_published_at : string }.
End Comment.

Module Detail.
(** A value of the dictionary returned by [get_video_details]. *)
Record t := mk {
    view_count : Z;
    like_count : Z;
    comment_count : Z;
    duration : Z;
    description : string }.
End Detail.

Module Video.
(** The dictionary built for a video by [search_videos].  The five keys
      that [video.update(details[vid_id])] adds are present together or
      not at all: [detail]. *)
Record t := mk {
    video_id : string;
    relevance_rank : Z;
    title : string;
    channel : string;
    video_published_at : string;
    detail : option Detail.t }.

(** [video.get("view_count", 0)] and its siblings. *)
Definition view_count (v : t) : Z := from_option Detail.view_count 0 (detail v).
Definition like_count (v : t) : Z := from_option Detail.like_count 0 (detail v).
Definition comment_count (v : t) : Z :=
    from_option Detail.comment_count 0 (detail v).
Definition duration (v : t) : Z := from_option Detail.duration 0 (detail v).
Definition description (v : t) : string :=
    from_option Detail.description "" (detail v).
End Video.

Module Row.
(** A comment dictionary after [scrape_comments] has added the video's
      fields, in the order of [fieldnames]. *)
Record t := mk {
    video_id : string;
    comment_id : string;
    parent_id : option string;
    is_reply : bool;
    relevance_rank : Z;
    video_title : string;
    video_channel : string;
    video_published_at : string;
    video_view_count : Z;
    video_like_count : Z;
    video_comment_count : Z;
    video_duration : Z;
    video_description : string;
    author : string;
    comment_text : string;
    comment_like_count : Z;
    comment_published_at : string }.
End Row.

(* ===================================================================== *)
(** ** [get_video_details] and [search_videos] *)
(* ===================================================================== *)

Definition detail_of (item : VideoResource.t) : Detail.t :=
  let stats := VideoResource.stats item in
  let stat (f : VideoResource.statistics -> option Z) : Z :=
    default 0 (stats ≫= f) in
  {| Detail.view_count := stat VideoResource.viewCount;
     Detail.like_count := stat VideoResource.likeCount;
     Detail.comment_count := stat VideoResource.commentCount;
     Detail.duration :=
       Duration.parse_duration
         (Some (default "" (mjoin (VideoResource.duration item))));
     Detail.description := default "" (VideoResource.description item) |}.

(** [get_video_details(youtube, video_ids)]: the mapping and what the
    call did. *)
Definition get_video_details (yt : youtube) (video_ids : list string)
  : gmap string Detail.t * list effect :=
  match video_ids with
  | [] => (∅, [])
  | _ =>
      let id := String.concat "," video_ids in
      match videos_list yt id with
      | Done response =>
          (fold_left
             (fun video_details item =>
                <[VideoResource.id item := detail_of item]> video_details)
             (default [] response) ∅,
           [Execute (VideosList id)])
      | Raised e =>
          (∅, [Execute (VideosList id); Print (MsgDetailsError e)])
      end
  end.

(** [enumerate(items, start=rank)] mapped to the video stubs. *)
Fixpoint video_stubs (rank : Z) (items : list SearchResult.t) : list Video.t :=
  match items with
  | [] => []
  | item :: items' =>
      {| Video.video_id := SearchResult.videoId item;
         Video.relevance_rank := rank;
         Video.title := SearchResult.title item;
         Video.channel := SearchResult.channelTitle item;
         Video.video_published_at := SearchResult.publishedAt item;
         Video.detail := None |}
      :: video_stubs (rank + 1) items'
  end.

(** [if vid_id in details: video.update(details[vid_id])] *)
Definition enrich (details : gmap string Detail.t) (video : Video.t) : Video.t :=
  match details !! Video.video_id video with
  | Some d =>
      {| Video.video_id := Video.video_id video;
         Video.relevance_rank := Video.relevance_rank video;
         Video.title := Video.title video;
         Video.channel := Video.channel video;
         Video.video_published_at := Video.video_published_at video;
         Video.detail := Some d |}
  | None => video
  end.

Definition search_videos (yt : youtube) (query : string) (max_results : Z)
  : list Video.t * list effect :=
  match search_list yt query max_results with
  | Done response =>
      let videos := video_stubs 1 (default [] response) in
      let video_ids := map Video.video_id videos in
      let (details, called) := get_video_details yt video_ids in
      (map (enrich details) videos,
       Execute (SearchList query max_results) :: called)
  | Raised e =>
      ([], [Execute (SearchList query max_results); Print (MsgSearchError e)])
  end.

(* ===================================================================== *)
(** ** [get_video_comments] *)
(* ===================================================================== *)

(** The locals of [get_video_comments], and the effects so far. *)
Record frame : Type := {
  comments : list Comment.t;
  comment_count : Z;
  reply_count : Z;
  effects : list effect }.

Definition emit (e : effect) : M frame unit :=
  modify (fun st =>
    {| comments := comments st; comment_count := comment_count st;
       reply_count := reply_count st; effects := effects st ++ [e] |}).

(** [comments.append(c)] followed by [comment_count += 1] *)
Definition append_comment (c : Comment.t) : M frame unit :=
  modify (fun st =>
    {| comments := comments st ++ [c]; comment_count := comment_count st + 1;
       reply_count := reply_count st; effects := effects st |}).

(** [comments.append(c)] followed by [reply_count += 1] *)
Definition append_reply (c : Comment.t) : M frame unit :=
  modify (fun st =>
    {| comments := comments st ++ [c]; comment_count := comment_count st;
       reply_count := reply_count st + 1; effects := effects st |}).

Definition comment_data (video_id : string) (item : Thread.t) : Comment.t :=
  let top_comment := Thread.topLevelComment item in
  {| Comment.video_id := video_id;
     Comment.comment_id := Thread.id item;
     Comment.parent_id := None;
     Comment.is_reply := false;
     Comment.author := Snippet.authorDisplayName top_comment;
     Comment.comment_text := Snippet.textDisplay top_comment;
     Comment.comment_like_count := Snippet.likeCount top_comment;
     Comment.comment_published_at := Snippet.publishedAt top_comment |}.

Definition reply_data (video_id comment_id : string) (reply : Reply.t)
  : Comment.t :=
  let reply_snippet := Reply.snippet reply in
  {| Comment.video_id := video_id;
     Comment.comment_id := Reply.id reply;
     Comment.parent_id := Some comment_id;
     Comment.is_reply := true;
     Comment.author := Snippet.authorDisplayName reply_snippet;
     Comment.comment_text := Snippet.textDisplay reply_snippet;
     Comment.comment_like_count := Snippet.likeCount reply_snippet;
     Comment.comment_published_at := Snippet.publishedAt reply_snippet |}.

(** [any(c["comment_id"] == reply_id for c in comments)] *)
Definition already_have (reply_id : string) (cs : list Comment.t) : bool :=
  existsb (fun c => String.eqb (Comment.comment_id c) reply_id) cs.

(** The body of [for reply in replies_response.get("items", [])]. *)
Definition supplemental_reply (video_id comment_id : string) (reply : Reply.t)
  : M frame unit :=
  (st <- get ;;
   if already_have (Reply.id reply) (comments st) then ret tt
   else append_reply (reply_data video_id comment_id reply))%prog.

(** [while replies_request: ...] over the reply listing of one parent. *)
Fixpoint replies_loop (video_id comment_id : string)
    (replies_request : paged Reply.t) : M frame unit :=
  (emit (Sleep 200) ;;;
   emit (Execute (CommentsList comment_id)) ;;;
   match replies_request with
   | Fails e => raise e
   | Last items =>
       for_each (default [] items) (supplemental_reply video_id comment_id)
   | More items next =>
       for_each (default [] items) (supplemental_reply video_id comment_id) ;;;
       replies_loop video_id comment_id next
   end)%prog.

(** [item.get("replies", {}).get("comments", [])] *)
Definition inline_replies (item : Thread.t) : list Reply.t :=
  default [] (mjoin (Thread.replies item)).

(** [total_reply_count > fetched_replies] *)
Definition needs_more (item : Thread.t) : bool :=
  let total_reply_count := default 0 (Thread.totalReplyCount item) in
  let fetched_replies := Z.of_nat (length (inline_replies item)) in
  total_reply_count >? fetched_replies.

(** The body of [for item in response.get("items", [])]. *)
Definition process_item (yt : youtube) (video_id : string) (item : Thread.t)
  : M frame unit :=
  let comment_id := Thread.id item in
  (append_comment (comment_data video_id item) ;;;
   match Thread.replies item with
   | Some replies =>
       for_each (default [] replies)
         (fun reply => append_reply (reply_data video_id comment_id reply))
   | None => ret tt
   end ;;;
   if needs_more item then
     try_except
       (replies_loop video_id comment_id (comments_list yt comment_id))
       (fun e => emit (Print (MsgRepliesError comment_id e)))
   else ret tt)%prog.

(** [while request: ...] over the thread listing of the video. *)
Fixpoint threads_loop (yt : youtube) (video_id : string)
    (request : paged Thread.t) : M frame unit :=
  (emit (Execute (CommentThreadsList video_id)) ;;;
   match request with
   | Fails e => raise e
   | Last items => for_each (default [] items) (process_item yt video_id)
   | More items next =>
       for_each (default [] items) (process_item yt video_id) ;;;
       emit (Sleep 500) ;;;
       threads_loop yt video_id next
   end)%prog.

(** [text in e], Python's substring test. *)
Definition contains (text e : string) : bool :=
  match String.index 0 text e with
  | Some _ => true
  | None => false
  end.

Definition frame0 : frame :=
  {| comments := []; comment_count := 0; reply_count := 0; effects := [] |}.

(** The [try] block of [get_video_comments], run from fresh locals. *)
Definition try_block (yt : youtube) (video_id : string)
  : frame * outcome (list Comment.t) :=
  (threads_loop yt video_id (commentThreads_list yt video_id) ;;;
   st <- get ;;
   emit (Print (MsgCollected (comment_count st) (reply_count st))) ;;;
   ret (comments st))%prog frame0.

(** [get_video_comments(youtube, video_id)]: the returned list and the
    effects of the call. *)
Definition get_video_comments (yt : youtube) (video_id : string)
  : list Comment.t * list effect :=
  match try_block yt video_id with
  | (st, Done cs) => (cs, effects st)
  | (st, Raised e) =>
      ([],
       effects st ++
       [Print (if contains "commentsDisabled" e
               then MsgCommentsDisabled video_id
               else MsgVideoError video_id e)])
  end.

(** *** The retriever read as a function on lists

    The loops above are proved below to compute these folds; the
    properties of the retriever are stated on them. *)

(** One reply of the reply listing: kept unless its identifier is
    already among the collected comments. *)
Definition add_supplemental (video_id comment_id : string)
    (cs : list Comment.t) (reply : Reply.t) : list Comment.t :=
  if already_have (Reply.id reply) cs then cs
  else cs ++ [reply_data video_id comment_id reply].

(** The replies that the reply listing delivers for a thread, when it is
    asked at all. *)
Definition supplemental (yt : youtube) (item : Thread.t) : list Reply.t :=
  if needs_more item then reached (comments_list yt (Thread.id item)) else [].

Definition inline_rows (video_id : string) (item : Thread.t) : list Comment.t :=
  map (reply_data video_id (Thread.id item)) (inline_replies item).

(** One thread: the top-level comment, its inline replies, then the
    supplemental replies not yet collected. *)
Definition add_thread (yt : youtube) (video_id : string)
    (cs : list Comment.t) (item : Thread.t) : list Comment.t :=
  fold_left (add_supplemental video_id (Thread.id item)) (supplemental yt item)
    (cs ++ comment_data video_id item :: inline_rows video_id item).

Definition collect (yt : youtube) (video_id : string) (items : list Thread.t)
  : list Comment.t :=
  fold_left (add_thread yt video_id) items [].

(** The effects of walking the reply listing of one parent. *)
Fixpoint replies_trace (comment_id : string) (p : paged Reply.t) : list effect :=
  [Sleep 200; Execute (CommentsList comment_id)] ++
  match p with
  | More _ next => replies_trace comment_id next
  | _ => []
  end.

Definition item_trace (yt : youtube) (item : Thread.t) : list effect :=
  if needs_more item then
    let p := comments_list yt (Thread.id item) in
    replies_trace (Thread.id item) p ++
    match failure p with
    | Some e => [Print (MsgRepliesError (Thread.id item) e)]
    | None => []
    end
  else [].

Fixpoint threads_trace (yt : youtube) (video_id : string) (p : paged Thread.t)
  : list effect :=
  Execute (CommentThreadsList video_id) ::
  match p with
  | Fails _ => []
  | Last items => flat_map (item_trace yt) (default [] items)
  | More items next =>
      flat_map (item_trace yt) (default [] items) ++
      Sleep 500 :: threads_trace yt video_id next
  end.

(* ===================================================================== *)
(** ** [scrape_comments] *)
(* ===================================================================== *)

(** What [scrape_comments] does to the outside world: the effects above,
    creating the data directory, and writing the CSV file. *)
Inductive action : Type :=
| Do (e : effect)
| MakeDirs (path : string)
| WriteCsv (output_file : string) (fieldnames : list string) (rows : list Row.t).

Definition fieldnames : list string :=
  [ "video_id"; "comment_id"; "parent_id"; "is_reply"; "relevance_rank";
    "video_title"; "video_channel"; "video_published_at"; "video_view_count";
    "video_like_count"; "video_comment_count"; "video_duration";
    "video_description"; "author"; "comment_text"; "comment_like_count";
    "comment_published_at" ].

(** The assignments of [for comment in comments: ...]. *)
Definition decorate (video : Video.t) (comment : Comment.t) : Row.t :=
  {| Row.video_id := Comment.video_id comment;
     Row.comment_id := Comment.comment_id comment;
     Row.parent_id := Comment.parent_id comment;
     Row.is_reply := Comment.is_reply comment;
     Row.relevance_rank := Video.relevance_rank video;
     Row.video_title := Video.title video;
     Row.video_channel := Video.channel video;
     Row.video_published_at := Video.video_published_at video;
     Row.video_view_count := Video.view_count video;
     Row.video_like_count := Video.like_count video;
     Row.video_comment_count := Video.comment_count video;
     Row.video_duration := Video.duration video;
     Row.video_description := Video.description video;
     Row.author := Comment.author comment;
     Row.comment_text := Comment.comment_text comment;
     Row.comment_like_count := Comment.comment_like_count comment;
     Row.comment_published_at := Comment.comment_published_at comment |}.

(** [sum(1 for c in comments if p(c))] *)
Definition count (p : Comment.t -> bool) (cs : list Comment.t) : Z :=
  Z.of_nat (length (filter (fun c => p c = true) cs)).

(** The locals of the video loop of [scrape_comments]. *)
Record totals : Type := {
  all_comments : list Row.t;
  total_top_comments : Z;
  total_replies : Z;
  actions : list action }.

(** One iteration of [for i, video in enumerate(videos, 1)]; [n] is
    [len(videos)]. *)
Definition scrape_video (yt : youtube) (n i : nat) (video : Video.t)
    (acc : totals) : totals :=
  let (cs, effs) := get_video_comments yt (Video.video_id video) in
  let top_comments := count (fun c => negb (Comment.is_reply c)) cs in
  let replies := count Comment.is_reply cs in
  {| all_comments := all_comments acc ++ map (decorate video) cs;
     total_top_comments := total_top_comments acc + top_comments;
     total_replies := total_replies acc + replies;
     actions :=
       actions acc
       ++ [Do (Print (MsgProcessing i n (Video.title video)))]
       ++ map Do effs
       ++ [Do (Print (MsgItems (length cs) top_comments replies))]
       ++ (if (i <? n)%nat then [Do (Sleep 1000)] else []) |}.

Fixpoint scrape_loop (yt : youtube) (n i : nat) (videos : list Video.t)
    (acc : totals) : totals :=
  match videos with
  | [] => acc
  | video :: videos' =>
      scrape_loop yt n (S i) videos' (scrape_video yt n i video acc)
  end.

(** The key test of [scrape_comments]: [not API_KEY or API_KEY ==
    "your_api_key_here"]. *)
Definition key_missing (API_KEY : option string) : bool :=
  match API_KEY with
  | None | Some "" => true
  | Some k => String.eqb k "your_api_key_here"
  end.

(** [scrape_comments(query, max_videos, output_file)].  [API_KEY] is the
    module's global, [yt] the service that [build] returns and
    [timestamp] the formatted [datetime.now()]. *)
Definition scrape_comments (API_KEY : option string) (yt : youtube)
    (timestamp : string) (query : string) (max_videos : Z)
    (output_file : option string) : list action :=
  if key_missing API_KEY then [Do (Print MsgNoApiKey)]
  else
    let output_file :=
      default ("data/youtube_comments_" +:+ timestamp +:+ ".csv") output_file in
    let (videos, searched) := search_videos yt query max_videos in
    let start :=
      [MakeDirs "data"; Do (Print (MsgSearching query))] ++ map Do searched in
    match videos with
    | [] => start ++ [Do (Print MsgNoVideosFound)]
    | _ =>
        let acc :=
          scrape_loop yt (length videos) 1 videos
            {| all_comments := []; total_top_comments := 0;
               total_replies := 0;
               actions := start ++ [Do (Print (MsgFound (length videos)))] |} in
        match all_comments acc with
        | [] => actions acc ++ [Do (Print MsgNoCommentsCollected)]
        | rows =>
            actions acc ++
            [ WriteCsv output_file fieldnames rows;
              Do (Print (MsgSuccess (total_top_comments acc) (total_replies acc)));
              Do (Print (MsgTotalItems (length rows)));
              Do (Print (MsgSavedTo output_file)) ]
        end
    end.

(** *** The run read as a function on lists *)

(** The rows one video contributes, and the rows of the whole run. *)
Definition video_rows (yt : youtube) (video : Video.t) : list Row.t :=
  map (decorate video) (fst (get_video_comments yt (Video.video_id video))).

Definition run_rows (yt : youtube) (videos : list Video.t) : list Row.t :=
  flat_map (video_rows yt) videos.

(** The files a run writes: path and rows of each [WriteCsv]. *)
Fixpoint writes (acts : list action) : list (string * list Row.t) :=
  match acts with
  | [] => []
  | WriteCsv output_file _ rows :: acts' => (output_file, rows) :: writes acts'
  | _ :: acts' => writes acts'
  end.

(** The content of the local [comments] when the [try] block of
    [get_video_comments] ends, normally or by an [HttpError]. *)
Definition collected_so_far (yt : youtube) (video_id : string)
  : list Comment.t :=
  comments (fst (try_block yt video_id)).

(** The identifiers that the thread listing delivers with one thread, and
    with all the threads reached for a video, and for a list of videos. *)
Definition thread_ids (item : Thread.t) : list string :=
  Thread.id item :: map Reply.id (inline_replies item).

Definition listed_ids (yt : youtube) (video_id : string) : list string :=
  flat_map thread_ids (reached (commentThreads_list yt video_id)).

Definition run_listed (yt : youtube) (video_ids : list string) : list string :=
  flat_map (listed_ids yt) video_ids.

(** A reply delivered by the reply listing of a thread and not among
    that thread's inline replies. *)
Definition extra (yt : youtube) (item : Thread.t) (x : string) : Prop :=
  exists r,
    In r (supplemental yt item) /\ Reply.id r = x /\
    ~ In x (map Reply.id (inline_replies item)).

(** The reply listings deliver each thread's own replies: a reply of the
    listing of a thread is one of its inline replies, or its identifier
    is delivered nowhere else for these videos, neither by the thread
    listing nor by the reply listing of another thread. *)
Definition replies_owned (yt : youtube) (video_ids : list string) : Prop :=
  forall video_id item r,
    In video_id video_ids ->
    In item (reached (commentThreads_list yt video_id)) ->
    In r (supplemental yt item) ->
    In (Reply.id r) (map Reply.id (inline_replies item)) \/
    (~ In (Reply.id r) (run_listed yt video_ids) /\
     forall video_id' item',
       In video_id' video_ids ->
       In item' (reached (commentThreads_list yt video_id')) ->
       Thread.id item' <> Thread.id item ->
       ~ In (Reply.id r) (map Reply.id (supplemental yt item'))).

(** *** Notions used to state the properties *)

(** ** Identifier uniqueness *)

Abbreviation ids := (map Comment.comment_id).

(** [steps m st r cs es]: run from [st], the statement [m] ends with [r],
    leaving [cs] in [comments] and [es] in the effects. *)
Definition steps {A} (m : M frame A) (st : frame) (r : outcome A)
    (cs : list Comment.t) (es : list effect) : Prop :=
  exists st', m st = (st', r) /\ comments st' = cs /\ effects st' = es.

(** The outcome of walking a listing to its end. *)
Definition walked {A} (p : paged A) : outcome unit :=
  match failure p with
  | Some e => Raised e
  | None => Done tt
  end.

(** Every reply of [cs] is flagged as one and points to a top-level
    comment of [cs] for the same video. *)
Definition consistent (cs : list Comment.t) : Prop :=
  forall c, In c cs ->
    (Comment.is_reply c = true <-> Comment.parent_id c <> None) /\
    forall parent, Comment.parent_id c = Some parent ->
      exists top, In top cs /\ Comment.is_reply top = false /\
                  Comment.comment_id top = parent /\
                  Comment.video_id top = Comment.video_id c.

(** The thread's own top-level comment, once in the list, stays. *)
Definition has_top (video_id parent : string) (cs : list Comment.t) : Prop :=
  exists top, In top cs /\ Comment.is_reply top = false /\
              Comment.comment_id top = parent /\
              Comment.video_id top = video_id.

Definition output_path (timestamp : string) (output_file : option string)
  : string :=
  default ("data/youtube_comments_" +:+ timestamp +:+ ".csv") output_file.

(* ===================================================================== *)
(** ** Sample snapshots of the remote service *)
(* ===================================================================== *)

Module Sample.

Definition snippet (author text : string) : Snippet.t :=
  {| Snippet.authorDisplayName := author; Snippet.textDisplay := text;
     Snippet.likeCount := 0; Snippet.publishedAt := "2025-01-05T12:00:00Z" |}.

Definition reply (id : string) : Reply.t :=
  {| Reply.id := id; Reply.snippet := snippet "replier" id |}.

Definition thread (id : string) (total : Z) (inline : list Reply.t) : Thread.t :=
  {| Thread.id := id; Thread.topLevelComment := snippet "author" id;
     Thread.totalReplyCount := Some total;
     Thread.replies := Some (Some inline) |}.

Definition found (video_id : string) : SearchResult.t :=
  {| SearchResult.videoId := video_id; SearchResult.title := "Congestion";
     SearchResult.channelTitle := "News";
     SearchResult.publishedAt := "2025-01-05T00:00:00Z" |}.

(** One video; thread A with one inline reply out of two, thread B with
    its only reply inline. *)
Definition two_threads : youtube :=
  {| search_list := fun _ _ => Done (Some [found "v1"]);
     videos_list := fun _ => Done (Some []);
     commentThreads_list := fun _ =>
       Last (Some [thread "A" 2 [reply "rA1"]; thread "B" 1 [reply "rB1"]]);
     comments_list := fun _ => Last (Some [reply "rA1"; reply "rA2"]) |}.

(** One video; a thread with three of its five replies inline. *)
Definition five_replies : youtube :=
  {| search_list := fun _ _ => Done (Some [found "v1"]);
     videos_list := fun _ => Done (Some []);
     commentThreads_list := fun _ =>
       Last (Some [thread "T" 5 [reply "r1"; reply "r2"; reply "r3"]]);
     comments_list := fun _ =>
       More (Some [reply "r1"; reply "r2"; reply "r3"])
            (Last (Some [reply "r4"; reply "r5"])) |}.

(** One video; the second page of the thread listing fails. *)
Definition quota : youtube :=
  {| search_list := fun _ _ => Done (Some [found "v1"]);
     videos_list := fun _ => Done (Some []);
     commentThreads_list := fun _ =>
       More (Some [thread "A" 0 []]) (Fails "quotaExceeded");
     comments_list := fun _ => Last None |}.

(** One video; the thread listing delivers thread A on both pages. *)
Definition repeated : youtube :=
  {| search_list := fun _ _ => Done (Some [found "v1"]);
     videos_list := fun _ => Done (Some []);
     commentThreads_list := fun _ =>
       More (Some [thread "A" 0 []]) (Last (Some [thread "A" 0 []]));
     comments_list := fun _ => Last None |}.

(** Discovery fails. *)
Definition no_search : youtube :=
  {| search_list := fun _ _ => Raised "quotaExceeded";
     videos_list := fun _ => Done (Some []);
     commentThreads_list := fun _ => Last None;
     comments_list := fun _ => Last None |}.

(** The video that the sample searches find, before enrichment. *)
Definition sample_video : Video.t :=
  {| Video.video_id := "v1"; Video.relevance_rank := 1;
     Video.title := "Congestion"; Video.channel := "News";
     Video.video_published_at := "2025-01-05T00:00:00Z";
     Video.detail := None |}.

End Sample.

(** *** Notions used to state further properties *)

(** The item of a [videos().list] response that ends up in the mapping
    for [video_id]: the last one carrying that identifier. *)
Definition last_with_id (video_id : string) (items : list VideoResource.t)
  : option VideoResource.t :=
  List.find (fun item => String.eqb (VideoResource.id item) video_id)
            (rev items).

(** The stub that [search_videos] builds for the item at 0-based
    position [k] of the search response. *)
Definition stub_at (k : nat) (item : SearchResult.t) : Video.t :=
  {| Video.video_id := SearchResult.videoId item;
     Video.relevance_rank := Z.of_nat k + 1;
     Video.title := SearchResult.title item;
     Video.channel := SearchResult.channelTitle item;
     Video.video_published_at := SearchResult.publishedAt item;
     Video.detail := None |}.

(** [video] is [stub] with or without the five detail keys. *)
Definition same_stub (video stub : Video.t) : Prop :=
  Video.video_id video = Video.video_id stub /\
  Video.relevance_rank video = Video.relevance_rank stub /\
  Video.title video = Video.title stub /\
  Video.channel video = Video.channel stub /\
  Video.video_published_at video = Video.video_published_at stub.

(** **** Further sample snapshots *)

(** A [videos().list] item for video "v1" with a view count only. *)
Definition sample_details (views : Z) : VideoResource.t :=
  {| VideoResource.id := "v1";
     VideoResource.stats :=
       Some {| VideoResource.viewCount := Some views;
               VideoResource.likeCount := None;
               VideoResource.commentCount := None |};
     VideoResource.duration := Some (Some "PT2M18S");
     VideoResource.description := None |}.

(** One search result, whose details come twice in the response. *)
Definition detailed : youtube :=
  {| search_list := fun _ _ => Done (Some [Sample.found "v1"]);
     videos_list := fun _ => Done (Some [sample_details 10; sample_details 25]);
     commentThreads_list := fun _ => Last (Some [Sample.thread "A" 0 []]);
     comments_list := fun _ => Last None |}.

(** The details request fails. *)
Definition no_details : youtube :=
  {| search_list := fun _ _ =>
       Done (Some [Sample.found "v1"; Sample.found "v2"]);
     videos_list := fun _ => Raised "quotaExceeded";
     commentThreads_list := fun _ => Last (Some [Sample.thread "A" 0 []]);
     comments_list := fun _ => Last None |}.


(** The identifiers that the remote delivers for a video: with each
    thread reached, its own, those of its inline replies, and those of
    the replies reached in its reply listing when that is requested. *)
Definition delivered (yt : youtube) (video_id : string) : list string :=
  flat_map
    (fun item => thread_ids item ++ map Reply.id (supplemental yt item))
    (reached (commentThreads_list yt video_id)).

Definition is_top (c : Comment.t) : bool := negb (Comment.is_reply c).

(** One thread whose reply listing fails on its second page, followed by
    a thread without replies. *)
Definition flaky_replies : youtube :=
  {| search_list := fun _ _ => Done (Some [Sample.found "v1"]);
     videos_list := fun _ => Done (Some []);
     commentThreads_list := fun _ =>
       More (Some [Sample.thread "A" 3 [Sample.reply "rA1"]])
            (Last (Some [Sample.thread "B" 0 []]));
     comments_list := fun _ =>
       More (Some [Sample.reply "rA1"; Sample.reply "rA2"])
            (Fails "backendError") |}.


(** The counters of [get_video_comments] agree with its list. *)
Definition counted (st : frame) : Prop :=
  comment_count st = count (fun c => negb (Comment.is_reply c)) (comments st) /\
  reply_count st = count Comment.is_reply (comments st).

(** A statement that keeps the counters in agreement. *)
Definition keeps {A} (m : M frame A) : Prop :=
  forall st, counted st -> counted (fst (m st)).

(** The number of rows of a file that are, or are not, replies. *)
Definition tally (reply : bool) (rows : list Row.t) : Z :=
  Z.of_nat
    (length (List.filter (fun row => Bool.eqb (Row.is_reply row) reply) rows)).


(** The one-second pause that [scrape_comments] makes between videos. *)
Definition is_pause (a : action) : bool :=
  match a with
  | Do (Sleep ms) => ms =? 1000
  | _ => false
  end.

Definition pauses (acts : list action) : nat :=
  length (List.filter is_pause acts).

(** The totals of the video loop agree with its rows. *)
Definition tallied (acc : totals) : Prop :=
  total_top_comments acc = tally false (all_comments acc) /\
  total_replies acc = tally true (all_comments acc).


(** Every effect of [l] that is a [request] comes right after [pause]. *)
Definition each_after (pause : effect) (request : effect -> Prop)
    (l : list effect) : Prop :=
  forall before e after,
    l = before ++ e :: after -> request e ->
    exists before', before = before' ++ [pause].

Definition not_first (request : effect -> Prop) (l : list effect) : Prop :=
  match l with
  | e :: _ => ~ request e
  | [] => True
  end.

Definition reply_request (e : effect) : Prop :=
  exists parent, e = Execute (CommentsList parent).

Definition thread_request (e : effect) : Prop :=
  exists video_id, e = Execute (CommentThreadsList video_id).

Definition paced (pause : effect) (request : effect -> Prop)
    (l : list effect) : Prop :=
  each_after pause request l /\ not_first request l.


(* ===================================================================== *)
(** ** The first scraper, [youtube.py] *)
(* ===================================================================== *)

Module Youtube.

Module Comment.
(** The dictionary that [youtube.py] builds for a comment. *)
Record t := mk {
  video_id : string;
  author : string;
  comment_text : string;
  like_count : Z;
  published_at : string }.
End Comment.

Module Video.
(** The dictionary that [youtube.py] builds for a video. *)
Record t := mk {
  video_id : string;
  title : string;
  channel : string;
  published_at : string }.
End Video.

(** [search_videos(youtube, query, max_results)] of [youtube.py]. *)
Definition search_videos (yt : youtube) (query : string) (max_results : Z)
  : list Video.t * list effect :=
  match search_list yt query max_results with
  | Done response =>
      (map (fun item =>
              {| Video.video_id := SearchResult.videoId item;
                 Video.title := SearchResult.title item;
                 Video.channel := SearchResult.channelTitle item;
                 Video.published_at := SearchResult.publishedAt item |})
           (default [] response),
       [Execute (SearchList query max_results)])
  | Raised e =>
      ([], [Execute (SearchList query max_results); Print (MsgSearchError e)])
  end.

(** The dictionary appended for one item of the thread listing. *)
Definition comment_of (video_id : string) (item : Thread.t) : Comment.t :=
  let comment := Thread.topLevelComment item in
  {| Comment.video_id := video_id;
     Comment.author := Snippet.authorDisplayName comment;
     Comment.comment_text := Snippet.textDisplay comment;
     Comment.like_count := Snippet.likeCount comment;
     Comment.published_at := Snippet.publishedAt comment |}.

(** [while request: ...]: the list and the effects after the loop, and
    the [HttpError] that ended it, if any. *)
Fixpoint walk (video_id : string) (request : paged Thread.t)
    (comments : list Comment.t)
  : list Comment.t * list effect * option string :=
  match request with
  | Fails e => (comments, [Execute (CommentThreadsList video_id)], Some e)
  | Last items =>
      (comments ++ map (comment_of video_id) (default [] items),
       [Execute (CommentThreadsList video_id)], None)
  | More items next =>
      let '(comments', effs, raised) :=
        walk video_id next
          (comments ++ map (comment_of video_id) (default [] items)) in
      (comments', Execute (CommentThreadsList video_id) :: effs, raised)
  end.

(** [get_video_comments(youtube, video_id)] of [youtube.py]. *)
Definition get_video_comments (yt : youtube) (video_id : string)
  : list Comment.t * list effect :=
  match walk video_id (commentThreads_list yt video_id) [] with
  | (comments, effs, None) => (comments, effs)
  | (_, effs, Some e) =>
      ([],
       effs ++
       [Print (if contains "commentsDisabled" e
               then MsgCommentsDisabled video_id
               else MsgVideoError video_id e)])
  end.

End Youtube.

(** What the first scraper keeps of a record of the second. *)
Definition legacy_row (c : Comment.t) : Youtube.Comment.t :=
  {| Youtube.Comment.video_id := Comment.video_id c;
     Youtube.Comment.author := Comment.author c;
     Youtube.Comment.comment_text := Comment.comment_text c;
     Youtube.Comment.like_count := Comment.comment_like_count c;
     Youtube.Comment.published_at := Comment.comment_published_at c |}.

Definition legacy_video (v : Video.t) : Youtube.Video.t :=
  {| Youtube.Video.video_id := Video.video_id v;
     Youtube.Video.title := Video.title v;
     Youtube.Video.channel := Video.channel v;
     Youtube.Video.published_at := Video.video_published_at v |}.


(** Every reply of [cs] comes after the top-level comment it points to. *)
Definition parents_first (cs : list Comment.t) : Prop :=
  forall before c after parent,
    cs = before ++ c :: after ->
    Comment.parent_id c = Some parent ->
    has_top (Comment.video_id c) parent before.


(* ===================================================================== *)
(** ** The duration parser with the limit of [int] *)
(* ===================================================================== *)

Module DurationLimit.

(** What a call of [parse_duration] ends with: the value it returns, or
    the [ValueError] that [int] raises for a numeral of [digits] digits
    when that is more than the interpreter converts.  Nothing in
    [parse_duration] catches it. *)
Inductive result : Type :=
| Returns (v : Z)
| ValueError (digits : nat).

(** CPython's [sys.get_int_max_str_digits()] when nothing sets it; 0
    turns the limit off, and below its threshold of 640 digits the
    interpreter never checks. *)
Definition default_max_str_digits : nat := 4300.

(** Whether [int] refuses a numeral of [digits] digits: it checks only
    above 640 digits, and only when the limit is set. *)
Definition over (max_str_digits digits : nat) : bool :=
  ((640 <? digits) && (0 <? max_str_digits) && (max_str_digits <? digits))%nat.

(** [int(text)] on a string of decimal digits: every digit counts,
    leading zeros included. *)
Definition int (max_str_digits : nat) (s : string) : result :=
  if over max_str_digits (String.length s) then ValueError (String.length s)
  else Returns (Duration.int s).

(** [int(match.group(g) or 0)] *)
Definition group_or_0 (max_str_digits : nat) (gs : gmap nat string) (g : nat)
  : result :=
  match gs !! g with
  | None | Some "" => Returns 0
  | Some d => int max_str_digits d
  end.

(** [parse_duration(duration)], the three conversions in the order of
    the source; the first that raises ends the call. *)
Definition parse_duration (max_str_digits : nat) (duration : option string)
  : result :=
  match duration with
  | None | Some "" => Returns 0
  | Some d =>
      match Duration.re_match Duration.pattern d with
      | None => Returns 0
      | Some (gs, _) =>
          match group_or_0 max_str_digits gs 1 with
          | ValueError n => ValueError n
          | Returns hours =>
              match group_or_0 max_str_digits gs 2 with
              | ValueError n => ValueError n
              | Returns minutes =>
                  match group_or_0 max_str_digits gs 3 with
                  | ValueError n => ValueError n
                  | Returns seconds =>
                      Returns (hours * 3600 + minutes * 60 + seconds)
                  end
              end
          end
      end
  end.

(** [c * n], Python's repetition of a one-character string. *)
Fixpoint times (c : ascii) (n : nat) : string :=
  match n with
  | O => ""
  | S n' => String c (times c n')
  end.

(** A seconds numeral of 4301 digits. *)
Definition long_token : string := "PT" +:+ times "1" 4301 +:+ "S".

(** A component that [int] refuses. *)
Definition refused (max_str_digits : nat) (d : option string) : bool :=
  match d with
  | Some ds => over max_str_digits (String.length ds)
  | None => false
  end.

(** The number of digits of a component, 0 when it is absent. *)
Definition digits_of (d : option string) : nat :=
  match d with
  | Some ds => String.length ds
  | None => 0
  end.

(** The outcome of the three conversions on the components read. *)
Definition convert (max_str_digits : nat) (h m sec : option string) : result :=
  if refused max_str_digits h then ValueError (digits_of h)
  else if refused max_str_digits m then ValueError (digits_of m)
  else if refused max_str_digits sec then ValueError (digits_of sec)
  else Returns (Duration.value h * 3600 + Duration.value m * 60
                + Duration.value sec).

End DurationLimit.

(* ===================================================================== *)
(** * Properties *)
(* ===================================================================== *)

(** ** The duration parser *)

Module DurationFacts.
Import Duration.

Lemma append_cons (c : ascii) (s r : string) :
  String c s +:+ r = String c (s +:+ r).
Proof. reflexivity. Qed.

Lemma append_nil_l (r : string) : "" +:+ r = r.
Proof. reflexivity. Qed.

Lemma append_nil_r (s : string) : s +:+ "" = s.
Proof.
  induction s as [|c s IH]; [reflexivity |].
  rewrite append_cons. now f_equal.
Qed.

Lemma append_assoc (a b c : string) : (a +:+ b) +:+ c = a +:+ (b +:+ c).
Proof.
  induction a as [|x a IH]; [reflexivity |].
  rewrite !append_cons. now f_equal.
Qed.

Lemma length_append (a b : string) :
  String.length (a +:+ b) = (String.length a + String.length b)%nat.
Proof.
  induction a as [|x a IH]; [reflexivity |].
  rewrite append_cons. simpl. now rewrite IH.
Qed.

Lemma prefix_append (p r : string) : String.prefix p (p +:+ r) = true.
Proof.
  induction p as [|c p IH].
  - now destruct r.
  - rewrite append_cons. simpl.
    destruct (ascii_dec c c); [exact IH | congruence].
Qed.

Lemma snoc_append (taken : string) (c : ascii) (run : string) :
  snoc taken c +:+ run = taken +:+ String c run.
Proof. unfold snoc. now rewrite append_assoc. Qed.

Lemma append_nonempty (taken : string) (c : ascii) (run : string) :
  taken +:+ String c run <> "".
Proof. destruct taken; discriminate. Qed.

(** Backtracking inside [\d+] never helps when a letter must follow: only
    the maximal run of digits can be followed by a non-digit. *)
Lemma greedy_digits_unit {A} (u : ascii) (k : string -> string -> option A) :
  is_digit u = false ->
  forall s taken,
    greedy_digits taken s
      (fun d s' => match s' with
                   | String c s'' => if Ascii.eqb u c then k d s'' else None
                   | "" => None
                   end)
    = let (run, rest) := span_digits s in
      match taken +:+ run, rest with
      | String _ _ as d, String c rest' =>
          if Ascii.eqb u c then k d rest' else None
      | _, _ => None
      end.
Proof.
  intros Hu s. induction s as [|c s IH]; intros taken.
  - simpl. rewrite append_nil_r. now destruct taken.
  - simpl. destruct (is_digit c) eqn:Hc.
    + rewrite IH. destruct (span_digits s) as [run rest].
      rewrite snoc_append.
      assert (Hstop : match taken with
                      | "" => None
                      | String _ _ => if Ascii.eqb u c then k taken s else None
                      end = None).
      { destruct taken; [reflexivity |].
        destruct (Ascii.eqb_spec u c); [congruence | reflexivity]. }
      rewrite Hstop.
      destruct (taken +:+ String c run) eqn:Ht.
      * now apply append_nonempty in Ht.
      * now destruct (match rest with "" => None | String _ _ => _ end).
    + rewrite append_nil_r. now destruct taken.
Qed.

Lemma rmatch_component {A} (g : nat) (u : ascii) (k : string -> groups -> option A) :
  is_digit u = false ->
  (forall s gs, k s gs <> None) ->
  forall s gs,
    rmatch (Opt (Cat (Digits g) (Lit u))) s gs k
    = let (d, r) := component u s in k r (with_group g d gs).
Proof.
  intros Hu Hk s gs. simpl.
  rewrite (greedy_digits_unit u (fun d s'' => k s'' (<[g:=d]> gs)) Hu).
  unfold component. destruct (span_digits s) as [run rest]. simpl.
  destruct run as [|c run]; [reflexivity |].
  destruct rest as [|c' rest']; [reflexivity |].
  destruct (Ascii.eqb u c'); [| reflexivity].
  simpl. destruct (k rest' _) eqn:Hr; [reflexivity |].
  now apply Hk in Hr.
Qed.

Lemma rmatch_component_total {A} (g : nat) (u : ascii)
    (k : string -> groups -> option A) :
  is_digit u = false ->
  (forall s gs, k s gs <> None) ->
  forall s gs, rmatch (Opt (Cat (Digits g) (Lit u))) s gs k <> None.
Proof.
  intros Hu Hk s gs. rewrite rmatch_component by assumption.
  destruct (component u s). apply Hk.
Qed.

Lemma rmatch_cat {A} (a b : regex) s gs (k : string -> groups -> option A) :
  rmatch (Cat a b) s gs k
  = rmatch a s gs (fun s' gs' => rmatch b s' gs' k).
Proof. reflexivity. Qed.

Lemma rmatch_lit {A} (c c' : ascii) s gs (k : string -> groups -> option A) :
  rmatch (Lit c) (String c' s) gs k = if Ascii.eqb c c' then k s gs else None.
Proof. reflexivity. Qed.

Lemma re_match_scan (s : string) :
  re_match pattern s
  = match scan s with
    | Some (h, m, sec, rest) =>
        Some (with_group 3 sec (with_group 2 m (with_group 1 h ∅)), rest)
    | None => None
    end.
Proof.
  unfold re_match, pattern, scan.
  destruct s as [|p [|t s0]].
  - reflexivity.
  - rewrite rmatch_cat, rmatch_lit. now destruct (Ascii.eqb "P" p).
  - rewrite rmatch_cat, rmatch_lit.
    destruct (Ascii.eqb "P" p); [| reflexivity].
    rewrite rmatch_cat, rmatch_lit.
    destruct (Ascii.eqb "T" t); [| reflexivity].
    cbn [andb]. rewrite rmatch_cat.
    rewrite rmatch_component; [| reflexivity |].
    2:{ intros. rewrite rmatch_cat.
        apply rmatch_component_total; [reflexivity |].
        intros. apply rmatch_component_total; [reflexivity | discriminate]. }
    destruct (component "H" s0) as [h s1].
    rewrite rmatch_cat, rmatch_component; [| reflexivity |].
    2:{ intros. apply rmatch_component_total; [reflexivity | discriminate]. }
    destruct (component "M" s1) as [m s2].
    rewrite rmatch_component; [| reflexivity | discriminate].
    destruct (component "S" s2) as [sec s3]. reflexivity.
Qed.

Lemma group_or_0_value (gs : groups) (g : nat) :
  group_or_0 gs g = value (gs !! g).
Proof. unfold group_or_0, value. now destruct (gs !! g) as [[|c d]|]. Qed.

(** [parse_duration] through the scanner. *)
Lemma parse_duration_scan (s : string) :
  parse_duration (Some s)
  = match scan s with
    | Some (h, m, sec, _) => value h * 3600 + value m * 60 + value sec
    | None => 0
    end.
Proof.
  unfold parse_duration. rewrite re_match_scan.
  destruct s as [|c s]; [reflexivity |].
  destruct (scan (String c s)) as [[[[h m] sec] rest]|]; [| reflexivity].
  rewrite !group_or_0_value.
  destruct h, m, sec; cbn [with_group]; simplify_map_eq; reflexivity.
Qed.

(** *** What the scanner returns *)

Lemma span_digits_spec (s : string) :
  match span_digits s with
  | (d, r) =>
      s = d +:+ r /\ all_digits d = true /\
      match r with
      | String c _ => is_digit c = false
      | "" => True
      end
  end.
Proof.
  induction s as [|c s IH]; [now cbn |].
  cbn [span_digits]. destruct (is_digit c) eqn:Hc.
  - destruct (span_digits s) as [d r]. destruct IH as (-> & Hd & Hr).
    cbn [all_digits]. now rewrite Hc, Hd.
  - cbn. now rewrite Hc.
Qed.

Lemma span_digits_run (d r : string) :
  all_digits d = true ->
  match r with String c _ => is_digit c = false | "" => True end ->
  span_digits (d +:+ r) = (d, r).
Proof.
  intros Hd Hr. induction d as [|c d IH].
  - rewrite append_nil_l. destruct r as [|c r]; [reflexivity |].
    cbn. now rewrite Hr.
  - cbn in Hd. apply andb_prop in Hd as [Hc Hd].
    rewrite append_cons. cbn [span_digits]. now rewrite Hc, (IH Hd).
Qed.

Lemma component_spec (u : ascii) (s : string) :
  match component u s with
  | (Some d, r) => digit_string d /\ s = d +:+ String u r
  | (None, r) => r = s
  end.
Proof.
  unfold component. pose proof (span_digits_spec s) as H.
  destruct (span_digits s) as [d r]. destruct H as (Hs & Hd & _).
  destruct d as [|c d]; [reflexivity |].
  destruct r as [|c' r]; [reflexivity |].
  destruct (Ascii.eqb_spec u c') as [->|]; [| reflexivity].
  split; [split; [discriminate | exact Hd] | exact Hs].
Qed.

Lemma component_take (u : ascii) (d r : string) :
  is_digit u = false -> digit_string d ->
  component u (d +:+ String u r) = (Some d, r).
Proof.
  intros Hu [Hne Hd]. unfold component.
  rewrite span_digits_run by assumption.
  destruct d; [congruence |]. now rewrite Ascii.eqb_refl.
Qed.

Lemma component_skip (u v : ascii) (d r : string) :
  is_digit v = false -> u <> v -> all_digits d = true ->
  component u (d +:+ String v r) = (None, d +:+ String v r).
Proof.
  intros Hv Huv Hd. unfold component.
  rewrite span_digits_run by assumption.
  destruct d; [reflexivity |].
  now destruct (Ascii.eqb_spec u v).
Qed.

Lemma component_length (u : ascii) (s : string) :
  (String.length (snd (component u s)) <= String.length s)%nat.
Proof.
  pose proof (component_spec u s) as H.
  destruct (component u s) as [[d|] r]; cbn [snd].
  - destruct H as [_ ->]. rewrite length_append. cbn. lia.
  - subst. lia.
Qed.

(** An absent component either stays absent, or the text that follows
    supplies one and the scanner moves on, strictly further. *)
Lemma component_absent (u : ascii) (s : string) :
  component u s = (None, s) \/
  (String.length (snd (component u s)) < String.length s)%nat.
Proof.
  pose proof (component_spec u s) as H.
  destruct (component u s) as [[d|] r]; cbn [snd].
  - right. destruct H as [_ ->]. rewrite length_append. cbn. lia.
  - left. now subst.
Qed.

Lemma prefix_cons (c1 c2 : ascii) (s1 s2 : string) :
  String.prefix (String c1 s1) (String c2 s2)
  = if Ascii.eqb c1 c2 then String.prefix s1 s2 else false.
Proof.
  cbn [String.prefix].
  destruct (ascii_dec c1 c2), (Ascii.eqb_spec c1 c2); congruence.
Qed.

Lemma prefix_PT (s : string) :
  String.prefix "PT" s
  = match s with
    | String p (String t _) => Ascii.eqb "P" p && Ascii.eqb "T" t
    | _ => false
    end.
Proof.
  destruct s as [|p [|t s]]; [reflexivity | |].
  - rewrite prefix_cons. now destruct (Ascii.eqb "P" p).
  - rewrite !prefix_cons.
    now destruct (Ascii.eqb "P" p), (Ascii.eqb "T" t), s.
Qed.

Lemma scan_spec (s : string) :
  match scan s with
  | Some (h, m, sec, rest) =>
      valid_component h /\ valid_component m /\ valid_component sec /\
      s = token h m sec +:+ rest
  | None => String.prefix "PT" s = false
  end.
Proof.
  rewrite prefix_PT. unfold scan. destruct s as [|p [|t s0]]; try reflexivity.
  destruct (Ascii.eqb_spec "P" p) as [<-|]; [| reflexivity].
  destruct (Ascii.eqb_spec "T" t) as [<-|]; [| reflexivity].
  cbn [andb].
  pose proof (component_spec "H" s0) as H1.
  destruct (component "H" s0) as [h s1].
  pose proof (component_spec "M" s1) as H2.
  destruct (component "M" s1) as [m s2].
  pose proof (component_spec "S" s2) as H3.
  destruct (component "S" s2) as [sec s3].
  unfold token, render_component.
  destruct h, m, sec;
    repeat match goal with H : _ /\ _ |- _ => destruct H end; subst;
    cbn [valid_component]; repeat (split; [first [assumption | exact I] |]);
    rewrite ?append_assoc, ?append_cons, ?append_nil_l; reflexivity.
Qed.

Lemma int_acc_nonneg (d : string) :
  all_digits d = true -> forall acc, 0 <= acc -> 0 <= int_acc acc d.
Proof.
  induction d as [|c d IH]; intros Hd acc Hacc; [exact Hacc |].
  cbn in Hd. apply andb_prop in Hd as [Hc Hd]. cbn [int_acc].
  apply IH; [exact Hd |].
  unfold is_digit in Hc. unfold digit_value.
  apply andb_prop in Hc as [H48 _]. apply Nat.leb_le in H48. lia.
Qed.

Lemma value_nonneg (d : option string) : valid_component d -> 0 <= value d.
Proof.
  destruct d as [d|]; [| cbn; lia].
  intros [_ Hd]. now apply int_acc_nonneg.
Qed.

(** *** The scanner on well-formed tokens followed by arbitrary text *)

Ltac scan_rest :=
  repeat match goal with
         | |- context [component ?u ?t] =>
             let H := fresh "Hlen" in
             pose proof (component_length u t) as H;
             destruct (component u t) as [? ?]; cbn [snd] in *
         end;
  right; do 4 eexists; split; [reflexivity | lia].

Ltac scan_step :=
  first
    [ rewrite component_take by (reflexivity || assumption)
    | rewrite component_skip
        by (reflexivity || discriminate ||
            match goal with H : digit_string ?d |- all_digits ?d = true =>
              exact (proj2 H) end)
    | match goal with
      | |- context [component ?u ?t] =>
          let E := fresh "E" in
          let Hlt := fresh "Hlt" in
          destruct (component_absent u t) as [E | Hlt];
          [rewrite E; clear E | scan_rest]
      end ];
  cbv beta iota.

Lemma scan_token (h m s : option string) (rest : string) :
  valid_component h -> valid_component m -> valid_component s ->
  scan (token h m s +:+ rest) = Some (h, m, s, rest) \/
  exists h' m' s' rest',
    scan (token h m s +:+ rest) = Some (h', m', s', rest') /\
    (String.length rest' < String.length rest)%nat.
Proof.
  intros Hh Hm Hs. unfold token. rewrite !append_assoc.
  change ("PT" +:+ ?x) with (String "P" (String "T" x)).
  unfold scan. rewrite !Ascii.eqb_refl. cbn [andb].
  destruct h as [h|], m as [m|], s as [s|];
    cbn [render_component valid_component] in *;
    rewrite ?append_assoc, ?append_cons, ?append_nil_l;
    repeat scan_step; left; reflexivity.
Qed.

Lemma scan_token_exact (h m s : option string) :
  valid_component h -> valid_component m -> valid_component s ->
  scan (token h m s) = Some (h, m, s, "").
Proof.
  intros Hh Hm Hs.
  destruct (scan_token h m s "" Hh Hm Hs) as [E | (h' & m' & s' & r' & _ & Hlt)].
  - now rewrite append_nil_r in E.
  - cbn in Hlt. lia.
Qed.

(** On a well-formed token the parser adds up the three components. *)
Lemma parse_duration_token (h m s : option string) :
  valid_component h -> valid_component m -> valid_component s ->
  parse_duration (Some (token h m s))
  = value h * 3600 + value m * 60 + value s.
Proof.
  intros Hh Hm Hs. rewrite parse_duration_scan.
  now rewrite scan_token_exact.
Qed.

(** *** Decimal numerals *)

Lemma int_acc_uint (d : Decimal.uint) (acc : nat) :
  int_acc (Z.of_nat acc) (DecimalString.NilEmpty.string_of_uint d)
  = Z.of_nat (Nat.of_uint_acc d acc).
Proof.
  revert acc. induction d; intros acc; cbn [DecimalString.NilEmpty.string_of_uint int_acc
    Nat.of_uint_acc]; [reflexivity | ..];
    rewrite <- IHd; f_equal; rewrite Nat.tail_mul_spec;
    unfold digit_value;
    match goal with
    | |- context [nat_of_ascii ?c] =>
        let v := eval vm_compute in (nat_of_ascii c) in
        change (nat_of_ascii c) with v
    end; lia.
Qed.

Lemma int_decimal (n : nat) : int (decimal n) = Z.of_nat n.
Proof.
  unfold int, decimal. change 0 with (Z.of_nat 0).
  rewrite int_acc_uint. change (Nat.of_uint_acc ?d 0) with (Nat.of_uint d).
  now rewrite DecimalNat.Unsigned.of_to.
Qed.

Lemma all_digits_uint (d : Decimal.uint) :
  all_digits (DecimalString.NilEmpty.string_of_uint d) = true.
Proof. induction d; cbn; auto. Qed.

Lemma digit_string_decimal (n : nat) : digit_string (decimal n).
Proof.
  split; [| apply all_digits_uint].
  unfold decimal. intros E.
  assert (Hn : Nat.to_uint n = Decimal.Nil) by now destruct (Nat.to_uint n).
  pose proof (DecimalNat.Unsigned.to_of (Nat.to_uint n)) as H.
  rewrite DecimalNat.Unsigned.of_to, Hn in H.
  now apply (DecimalFacts.unorm_nonnil Decimal.Nil).
Qed.

Lemma value_decimal (n : option nat) :
  value (decimal <$> n) = Z.of_nat (default 0%nat n).
Proof. destruct n as [n|]; [apply int_decimal | reflexivity]. Qed.

Lemma valid_component_decimal (n : option nat) :
  valid_component (decimal <$> n).
Proof. destruct n as [n|]; [apply digit_string_decimal | exact I]. Qed.

Lemma prefix_split (p x : string) :
  String.prefix p x = true -> exists r, x = p +:+ r.
Proof.
  revert x. induction p as [|c p IH]; intros x H.
  - now exists x.
  - destruct x as [|c' x]; [discriminate |].
    rewrite prefix_cons in H.
    destruct (Ascii.eqb_spec c c') as [<-|]; [| discriminate].
    apply IH in H as [r ->]. now exists r.
Qed.

(** The scanner stops at the end of the longest well-formed prefix. *)
Lemma scan_longest (x p : string) :
  valid_token p -> String.prefix p x = true ->
  match scan x with
  | Some (_, _, _, rest) =>
      (String.length p + String.length rest <= String.length x)%nat
  | None => False
  end.
Proof.
  intros (h & m & s & Hh & Hm & Hs & ->) [r ->]%prefix_split.
  rewrite length_append.
  destruct (scan_token h m s r Hh Hm Hs)
    as [-> | (h' & m' & s' & r' & -> & Hlt)]; lia.
Qed.

Lemma parse_duration_nonneg (d : option string) : 0 <= parse_duration d.
Proof.
  destruct d as [s|]; [| cbn; lia].
  rewrite parse_duration_scan. pose proof (scan_spec s) as H.
  destruct (scan s) as [[[[h m] sec] rest]|]; [| lia].
  destruct H as (Hh & Hm & Hs & _).
  apply value_nonneg in Hh, Hm, Hs. lia.
Qed.

Lemma parse_duration_no_prefix (s : string) :
  String.prefix "PT" s = false -> parse_duration (Some s) = 0.
Proof.
  intros H. rewrite parse_duration_scan. pose proof (scan_spec s) as Hs.
  destruct (scan s) as [[[[h m] sec] rest]|]; [| reflexivity].
  destruct Hs as (_ & _ & _ & ->). unfold token in H.
  rewrite !append_assoc in H. now rewrite prefix_PT in H.
Qed.

Lemma parse_duration_trailing (tok rest : string) :
  valid_token tok ->
  (forall p, valid_token p -> String.prefix p (tok +:+ rest) = true ->
             (String.length p <= String.length tok)%nat) ->
  parse_duration (Some (tok +:+ rest)) = parse_duration (Some tok).
Proof.
  intros (h & m & s & Hh & Hm & Hs & ->) Hmax.
  rewrite !parse_duration_scan, scan_token_exact by assumption.
  destruct (scan_token h m s rest Hh Hm Hs)
    as [-> | (h' & m' & s' & r' & E & Hlt)]; [reflexivity |].
  exfalso. pose proof (scan_spec (token h m s +:+ rest)) as Hsp.
  rewrite E in Hsp. destruct Hsp as (Hh' & Hm' & Hs' & Heq).
  assert (Hp : valid_token (token h' m' s')) by (exists h', m', s'; auto).
  specialize (Hmax _ Hp). rewrite Heq in Hmax at 1.
  specialize (Hmax (prefix_append _ _)).
  apply (f_equal String.length) in Heq. rewrite !length_append in Heq. lia.
Qed.

Example parse_PT2M18S : parse_duration (Some "PT2M18S") = 138.
Proof. vm_compute. reflexivity. Qed.

Example parse_out_of_order : parse_duration (Some "PT3S2M") = 3.
Proof. vm_compute. reflexivity. Qed.

Example parse_digits_without_unit : parse_duration (Some "PT1H30") = 3600.
Proof. vm_compute. reflexivity. Qed.

(** C5. The duration parser maps ["PT1H2M3S"] to 3723, ["PT5M"] to 300
    and the empty or absent token to 0; on every token made of the
    prefix [PT] and optional hour, minute and second numerals it returns
    hours * 3600 + minutes * 60 + seconds. *)
Theorem parse_duration_sums :
  parse_duration (Some "PT1H2M3S") = 3723 /\
  parse_duration (Some "PT5M") = 300 /\
  parse_duration (Some "") = 0 /\
  parse_duration None = 0 /\
  forall h m s : option nat,
    parse_duration (Some (token_of h m s)) = seconds_of h m s.
Proof.
  repeat split; try (vm_compute; reflexivity).
  intros h m s. unfold token_of, seconds_of.
  rewrite parse_duration_token by apply valid_component_decimal.
  now rewrite !value_decimal.
Qed.

End DurationFacts.

(** ** The retriever *)

Lemma steps_ret {A} (a : A) st : steps (ret a) st (Done a) (comments st) (effects st).
Proof. now exists st. Qed.

Lemma steps_raise {A} e st :
  steps (@raise frame A e) st (Raised e) (comments st) (effects st).
Proof. now exists st. Qed.

Lemma steps_emit e st :
  steps (emit e) st (Done tt) (comments st) (effects st ++ [e]).
Proof. eexists. split; [reflexivity |]. now cbn. Qed.

Lemma steps_append_comment c st :
  steps (append_comment c) st (Done tt) (comments st ++ [c]) (effects st).
Proof. eexists. split; [reflexivity |]. now cbn. Qed.

Lemma steps_append_reply c st :
  steps (append_reply c) st (Done tt) (comments st ++ [c]) (effects st).
Proof. eexists. split; [reflexivity |]. now cbn. Qed.

Lemma steps_bind {A B} (m : M frame A) (k : A -> M frame B) st a cs es r cs' es' :
  steps m st (Done a) cs es ->
  (forall st', comments st' = cs -> effects st' = es ->
               steps (k a) st' r cs' es') ->
  steps (bind m k) st r cs' es'.
Proof.
  intros (st1 & E & Hc & He) Hk. destruct (Hk st1 Hc He) as (st2 & E2 & H2).
  exists st2. split; [| exact H2]. unfold bind. now rewrite E.
Qed.

Lemma steps_bind_raised {A B} (m : M frame A) (k : A -> M frame B) st e cs es :
  steps m st (Raised e) cs es -> steps (bind m k) st (Raised e) cs es.
Proof.
  intros (st1 & E & H). exists st1. split; [| exact H].
  unfold bind. now rewrite E.
Qed.

Lemma steps_try_done {A} (m : M frame A) h st a cs es :
  steps m st (Done a) cs es -> steps (try_except m h) st (Done a) cs es.
Proof.
  intros (st1 & E & H). exists st1. split; [| exact H].
  unfold try_except. now rewrite E.
Qed.

Lemma steps_try_raised {A} (m : M frame A) (h : string -> M frame A)
    st e cs es r cs' es' :
  steps m st (Raised e) cs es ->
  (forall st', comments st' = cs -> effects st' = es ->
               steps (h e) st' r cs' es') ->
  steps (try_except m h) st r cs' es'.
Proof.
  intros (st1 & E & Hc & He) Hh. destruct (Hh st1 Hc He) as (st2 & E2 & H2).
  exists st2. split; [| exact H2]. unfold try_except. now rewrite E.
Qed.

Lemma steps_for_each {A} (body : A -> M frame unit)
    (f : list Comment.t -> A -> list Comment.t) (g : A -> list effect) :
  (forall x st, steps (body x) st (Done tt) (f (comments st) x)
                  (effects st ++ g x)) ->
  forall l st,
    steps (for_each l body) st (Done tt) (fold_left f l (comments st))
      (effects st ++ flat_map g l).
Proof.
  intros Hbody l. induction l as [|x l IH]; intros st.
  - cbn. rewrite app_nil_r. apply steps_ret.
  - cbn [for_each fold_left flat_map]. eapply steps_bind; [apply Hbody |].
    intros st' Hc He. specialize (IH st'). rewrite Hc, He in IH.
    now rewrite <- app_assoc in IH.
Qed.

Section Retriever.

Variable yt : youtube.
Variable video_id : string.

Lemma steps_supplemental_reply comment_id reply st :
  steps (supplemental_reply video_id comment_id reply) st (Done tt)
    (add_supplemental video_id comment_id (comments st) reply)
    (effects st ++ []).
Proof.
  rewrite app_nil_r. unfold supplemental_reply, add_supplemental.
  eapply steps_bind; [exists st; split; [reflexivity | split; reflexivity] |].
  cbn beta. intros st' Hc He.
  destruct (already_have (Reply.id reply) (comments st)).
  - rewrite <- Hc, <- He. apply steps_ret.
  - rewrite <- Hc, <- He. apply steps_append_reply.
Qed.

Lemma steps_replies_loop comment_id p : forall st,
  steps (replies_loop video_id comment_id p) st (walked p)
    (fold_left (add_supplemental video_id comment_id) (reached p) (comments st))
    (effects st ++ replies_trace comment_id p).
Proof.
  induction p as [e | items | items next IH]; intros st;
    cbn [replies_loop replies_trace reached];
    (eapply steps_bind; [apply steps_emit |]); intros st1 Hc1 He1;
    (eapply steps_bind; [apply steps_emit |]); intros st2 Hc2 He2;
    rewrite Hc1 in Hc2; rewrite He1 in He2.
  - rewrite <- Hc2. replace (effects st ++ _) with (effects st2).
    + apply steps_raise.
    + rewrite He2, <- !app_assoc. reflexivity.
  - pose proof (steps_for_each _ _ _
      (steps_supplemental_reply comment_id) (default [] items) st2) as H.
    rewrite Hc2, He2 in H. unfold walked. cbn [failure].
    replace (flat_map _ _) with (@nil effect) in H
      by (clear; induction (default [] items); cbn; auto).
    now rewrite <- !app_assoc in *.
  - eapply steps_bind.
    + apply (steps_for_each _ _ _ (steps_supplemental_reply comment_id)).
    + intros st3 Hc3 He3. specialize (IH st3).
      rewrite Hc3, He3, Hc2, He2 in IH.
      replace (flat_map _ _) with (@nil effect) in IH
        by (clear; induction (default [] items); cbn; auto).
      rewrite fold_left_app. unfold walked in *. cbn [failure].
      now rewrite <- !app_assoc in *.
Qed.

Lemma steps_inline_reply comment_id reply st :
  steps (append_reply (reply_data video_id comment_id reply)) st (Done tt)
    ((fun cs r => cs ++ [reply_data video_id comment_id r]) (comments st) reply)
    (effects st ++ []).
Proof. rewrite app_nil_r. apply steps_append_reply. Qed.

Lemma fold_left_snoc {A B} (f : A -> B) (l : list A) (acc : list B) :
  fold_left (fun cs r => cs ++ [f r]) l acc = acc ++ map f l.
Proof.
  revert acc. induction l as [|x l IH]; intros acc; cbn.
  - now rewrite app_nil_r.
  - now rewrite IH, <- app_assoc.
Qed.

Lemma flat_map_nil {A B} (l : list A) : flat_map (fun _ : A => @nil B) l = [].
Proof. induction l; cbn; auto. Qed.

Lemma steps_process_item item st :
  steps (process_item yt video_id item) st (Done tt)
    (add_thread yt video_id (comments st) item)
    (effects st ++ item_trace yt item).
Proof.
  unfold process_item, add_thread.
  eapply steps_bind; [apply steps_append_comment |]. intros st1 Hc1 He1.
  eapply steps_bind with (a := tt)
    (cs := comments st ++ comment_data video_id item :: inline_rows video_id item)
    (es := effects st).
  { unfold inline_rows, inline_replies.
    destruct (Thread.replies item) as [replies|]; cbn [mjoin option_join].
    - pose proof (steps_for_each _ _ _
        (steps_inline_reply (Thread.id item)) (default [] replies) st1) as H.
      rewrite fold_left_snoc, flat_map_nil, app_nil_r, Hc1, He1 in H.
      rewrite <- app_assoc in H. exact H.
    - cbn. rewrite <- Hc1, <- He1. apply steps_ret. }
  intros st2 Hc2 He2. unfold supplemental, item_trace.
  destruct (needs_more item).
  - pose proof (steps_replies_loop (Thread.id item)
      (comments_list yt (Thread.id item)) st2) as H.
    rewrite Hc2, He2 in H. unfold walked in H.
    destruct (failure (comments_list yt (Thread.id item))) as [e|].
    + eapply steps_try_raised; [exact H |]. intros st3 Hc3 He3.
      rewrite <- Hc3, app_assoc, <- He3. apply steps_emit.
    + rewrite app_nil_r. now apply steps_try_done.
  - cbn [fold_left]. rewrite app_nil_r, <- Hc2, <- He2. apply steps_ret.
Qed.

Lemma steps_threads_loop p : forall st,
  steps (threads_loop yt video_id p) st (walked p)
    (fold_left (add_thread yt video_id) (reached p) (comments st))
    (effects st ++ threads_trace yt video_id p).
Proof.
  induction p as [e | items | items next IH]; intros st;
    cbn [threads_loop threads_trace reached];
    (eapply steps_bind; [apply steps_emit |]); intros st1 Hc1 He1.
  - rewrite <- Hc1, <- He1. apply steps_raise.
  - pose proof (steps_for_each _ _ _ steps_process_item (default [] items) st1)
      as H.
    rewrite Hc1, He1, <- app_assoc in H. exact H.
  - eapply steps_bind; [apply (steps_for_each _ _ _ steps_process_item) |].
    intros st2 Hc2 He2.
    eapply steps_bind; [apply steps_emit |]. intros st3 Hc3 He3.
    specialize (IH st3). rewrite Hc3, He3, Hc2, He2, Hc1, He1 in IH.
    rewrite fold_left_app. unfold walked in *. cbn [failure].
    now rewrite <- !app_assoc in IH.
Qed.

(** What [get_video_comments] returns and does, read off the listing. *)
Lemma get_video_comments_spec :
  let p := commentThreads_list yt video_id in
  match failure p with
  | None =>
      exists comment_count reply_count,
        get_video_comments yt video_id
        = (collect yt video_id (reached p),
           threads_trace yt video_id p
           ++ [Print (MsgCollected comment_count reply_count)])
  | Some e =>
      get_video_comments yt video_id
      = ([],
         threads_trace yt video_id p
         ++ [Print (if contains "commentsDisabled" e
                    then MsgCommentsDisabled video_id
                    else MsgVideoError video_id e)])
  end.
Proof.
  intros p.
  destruct (steps_threads_loop p frame0) as (st1 & E & Hc & He).
  unfold walked in E.
  destruct (failure p) as [e|]; unfold get_video_comments, try_block;
    fold p; unfold bind at 1; rewrite E.
  - now rewrite He.
  - cbn. exists (comment_count st1), (reply_count st1).
    now rewrite Hc, He.
Qed.

Lemma get_video_comments_rows :
  let p := commentThreads_list yt video_id in
  fst (get_video_comments yt video_id)
  = match failure p with
    | None => collect yt video_id (reached p)
    | Some _ => []
    end.
Proof.
  intros p. pose proof get_video_comments_spec as H. fold p in H. cbv zeta in H.
  destruct (failure p); [now rewrite H |].
  destruct H as (cc & rc & ->). reflexivity.
Qed.

End Retriever.

(** *** Parent consistency *)

Lemma consistent_top cs video_id item :
  consistent cs -> consistent (cs ++ [comment_data video_id item]).
Proof.
  intros H c [Hc | [<- | []]]%in_app_iff.
  - destruct (H c Hc) as [Hflag Hparent]. split; [exact Hflag |].
    intros parent Hp. destruct (Hparent parent Hp) as (top & Hin & Htop).
    exists top. split; [apply in_app_iff; now left | exact Htop].
  - cbn. split; [split; [discriminate | congruence] | discriminate].
Qed.

Lemma consistent_reply cs video_id parent reply :
  consistent cs ->
  (exists top, In top cs /\ Comment.is_reply top = false /\
               Comment.comment_id top = parent /\
               Comment.video_id top = video_id) ->
  consistent (cs ++ [reply_data video_id parent reply]).
Proof.
  intros H (top & Hin & Htop) c [Hc | [<- | []]]%in_app_iff.
  - destruct (H c Hc) as [Hflag Hparent]. split; [exact Hflag |].
    intros p Hp. destruct (Hparent p Hp) as (t & Ht & Ht').
    exists t. split; [apply in_app_iff; now left | exact Ht'].
  - cbn. split; [split; [discriminate | reflexivity] |].
    intros p [= <-]. exists top. split; [apply in_app_iff; now left | exact Htop].
Qed.

Lemma has_top_app video_id parent cs cs' :
  has_top video_id parent cs -> has_top video_id parent (cs ++ cs').
Proof.
  intros (top & Hin & H). exists top. split; [apply in_app_iff; now left | exact H].
Qed.

Lemma consistent_inline video_id parent replies : forall cs,
  consistent cs -> has_top video_id parent cs ->
  consistent (cs ++ map (reply_data video_id parent) replies).
Proof.
  induction replies as [|r replies IH]; intros cs Hcs Htop; cbn [map].
  - now rewrite app_nil_r.
  - change (cs ++ ?x :: ?l) with (cs ++ [x] ++ l). rewrite app_assoc.
    apply IH; [now apply consistent_reply | now apply has_top_app].
Qed.

Lemma consistent_supplemental video_id parent replies : forall cs,
  consistent cs -> has_top video_id parent cs ->
  consistent (fold_left (add_supplemental video_id parent) replies cs).
Proof.
  induction replies as [|r replies IH]; intros cs Hcs Htop; cbn [fold_left].
  - exact Hcs.
  - unfold add_supplemental at 2.
    destruct (already_have (Reply.id r) cs); [now apply IH |].
    apply IH; [now apply consistent_reply | now apply has_top_app].
Qed.

Lemma consistent_add_thread yt video_id item cs :
  consistent cs -> consistent (add_thread yt video_id cs item).
Proof.
  intros Hcs. unfold add_thread, inline_rows.
  assert (Htop : has_top video_id (Thread.id item)
                   (cs ++ [comment_data video_id item])).
  { exists (comment_data video_id item).
    split; [apply in_app_iff; right; now left | now cbn]. }
  change (cs ++ ?x :: ?l) with (cs ++ [x] ++ l). rewrite app_assoc.
  apply consistent_supplemental.
  - apply consistent_inline; [now apply consistent_top | exact Htop].
  - now apply has_top_app.
Qed.

Lemma consistent_collect yt video_id items : forall cs,
  consistent cs -> consistent (fold_left (add_thread yt video_id) items cs).
Proof.
  induction items as [|item items IH]; intros cs Hcs; [exact Hcs |].
  cbn [fold_left]. apply IH. now apply consistent_add_thread.
Qed.

(** C4. Parent consistency: in every record that [get_video_comments]
    returns, [is_reply] is true exactly when [parent_id] is not null, and
    a non-null [parent_id] is the [comment_id] of a top-level record
    ([is_reply] false) returned for the same [video_id]. *)
Theorem parent_consistency (yt : youtube) (video_id : string) (c : Comment.t) :
  In c (fst (get_video_comments yt video_id)) ->
  (Comment.is_reply c = true <-> Comment.parent_id c <> None) /\
  forall parent, Comment.parent_id c = Some parent ->
    exists top,
      In top (fst (get_video_comments yt video_id)) /\
      Comment.is_reply top = false /\
      Comment.comment_id top = parent /\
      Comment.video_id top = Comment.video_id c.
Proof.
  revert c. change (consistent (fst (get_video_comments yt video_id))).
  rewrite get_video_comments_rows.
  destruct (failure _); [intros c [] |].
  apply consistent_collect. intros c [].
Qed.

(** *** Which reply listings are requested *)

Lemma in_replies_trace parent comment_id p :
  In (Execute (CommentsList parent)) (replies_trace comment_id p)
  <-> parent = comment_id.
Proof.
  split.
  - induction p as [e | items | items next IH]; cbn;
      intros [[=] | [[= ->] | H]]; auto; contradiction.
  - intros ->. destruct p; cbn; auto.
Qed.

Lemma in_item_trace yt parent item :
  In (Execute (CommentsList parent)) (item_trace yt item)
  <-> needs_more item = true /\ Thread.id item = parent.
Proof.
  unfold item_trace. destruct (needs_more item).
  - rewrite in_app_iff, in_replies_trace. split.
    + intros [-> | H]; [auto |].
      destruct (failure _); cbn in H; intuition discriminate.
    + intros [_ <-]. now left.
  - cbn. intuition discriminate.
Qed.

Lemma in_items_trace yt parent items :
  In (Execute (CommentsList parent)) (flat_map (item_trace yt) items)
  <-> exists item, In item items /\ needs_more item = true /\
                   Thread.id item = parent.
Proof.
  rewrite in_flat_map. split; intros (item & Hin & H); exists item;
    (split; [exact Hin | now apply (in_item_trace yt parent item)]).
Qed.

Lemma in_threads_trace yt video_id parent p :
  In (Execute (CommentsList parent)) (threads_trace yt video_id p)
  <-> exists item, In item (reached p) /\ needs_more item = true /\
                   Thread.id item = parent.
Proof.
  induction p as [e | items | items next IH]; cbn [threads_trace reached In].
  - split; [intros [[=] | []] | intros (item & [] & _)].
  - rewrite <- (in_items_trace yt). intuition congruence.
  - rewrite in_app_iff. cbn [In]. rewrite IH, in_items_trace.
    split.
    + intros [[=] | [(item & Hin & H) | [[=] | (item & Hin & H)]]];
        exists item; (split; [apply in_app_iff; auto | exact H]).
    + intros (item & [Hin | Hin]%in_app_iff & H); right; [left | right; right];
        now exists item.
Qed.

Lemma needs_more_spec item :
  needs_more item = true
  <-> Z.of_nat (length (inline_replies item))
      < default 0 (Thread.totalReplyCount item).
Proof. unfold needs_more. rewrite Z.gtb_ltb. apply Z.ltb_lt. Qed.

(** C7. Supplemental-fetch policy: [get_video_comments] executes a
    reply-listing request for a parent exactly when the thread listing
    delivered a thread with that identifier whose [totalReplyCount]
    strictly exceeds the number of its inline replies; for threads whose
    inline replies cover the count no reply listing is requested. *)
Theorem supplemental_fetch_policy (yt : youtube) (video_id parent : string) :
  In (Execute (CommentsList parent)) (snd (get_video_comments yt video_id))
  <-> exists item,
        In item (reached (commentThreads_list yt video_id)) /\
        Thread.id item = parent /\
        Z.of_nat (length (inline_replies item))
        < default 0 (Thread.totalReplyCount item).
Proof.
  assert (H : In (Execute (CommentsList parent))
                (snd (get_video_comments yt video_id))
              <-> In (Execute (CommentsList parent))
                    (threads_trace yt video_id
                       (commentThreads_list yt video_id))).
  { pose proof (get_video_comments_spec yt video_id) as Hs. cbv zeta in Hs.
    destruct (failure _); [| destruct Hs as (cc & rc & Hs)];
      rewrite Hs; cbn [snd]; rewrite in_app_iff; cbn;
      intuition discriminate. }
  rewrite H, in_threads_trace.
  split; intros (item & Hin & H1 & H2); exists item; repeat split; auto;
    now apply needs_more_spec.
Qed.

(** ** The orchestrator's loop *)

Lemma scrape_video_rows yt n i video acc :
  all_comments (scrape_video yt n i video acc)
  = all_comments acc ++ video_rows yt video.
Proof.
  unfold scrape_video, video_rows.
  now destruct (get_video_comments yt (Video.video_id video)).
Qed.

Lemma scrape_loop_rows yt n videos : forall i acc,
  all_comments (scrape_loop yt n i videos acc)
  = all_comments acc ++ run_rows yt videos.
Proof.
  induction videos as [|video videos IH]; intros i acc; cbn [scrape_loop].
  - cbn. now rewrite app_nil_r.
  - rewrite IH, scrape_video_rows. cbn [run_rows flat_map].
    now rewrite <- app_assoc.
Qed.

Lemma run_rows_app yt before after :
  run_rows yt (before ++ after) = run_rows yt before ++ run_rows yt after.
Proof. apply flat_map_app. Qed.

(** *** A failing thread listing *)

(** C2, as the code has it.  When a request of the thread listing raises
    an [HttpError] (comments disabled, or any other), retrieval for that
    video stops, the condition is printed as the last effect of the call,
    and [get_video_comments] returns the empty list: what had been
    collected for the video is dropped.  The loop of [scrape_comments]
    goes on: the rows of the videos before and after are all kept. *)
Theorem thread_listing_failure (yt : youtube) (video : Video.t) (e : string) :
  failure (commentThreads_list yt (Video.video_id video)) = Some e ->
  get_video_comments yt (Video.video_id video)
  = ([],
     threads_trace yt (Video.video_id video)
       (commentThreads_list yt (Video.video_id video))
     ++ [Print (if contains "commentsDisabled" e
                then MsgCommentsDisabled (Video.video_id video)
                else MsgVideoError (Video.video_id video) e)]) /\
  forall n i before after acc,
    all_comments (scrape_loop yt n i (before ++ video :: after) acc)
    = all_comments acc ++ run_rows yt before ++ run_rows yt after.
Proof.
  intros Hf.
  pose proof (get_video_comments_spec yt (Video.video_id video)) as H.
  cbv zeta in H. rewrite Hf in H. split; [exact H |].
  intros n i before after acc.
  rewrite scrape_loop_rows, run_rows_app. cbn [run_rows flat_map].
  unfold video_rows at 1. now rewrite H.
Qed.

Lemma thread_listing_failure_witness :
  get_video_comments Sample.quota "v1"
  = ([],
     [Execute (CommentThreadsList "v1"); Sleep 500;
      Execute (CommentThreadsList "v1");
      Print (MsgVideoError "v1" "quotaExceeded")]) /\
  forall n i before after acc,
    all_comments (scrape_loop Sample.quota n i
                    (before ++ Sample.sample_video :: after) acc)
    = all_comments acc ++ run_rows Sample.quota before
      ++ run_rows Sample.quota after.
Proof.
  exact (thread_listing_failure Sample.quota Sample.sample_video "quotaExceeded"
           eq_refl).
Defined.

(** C2, as stated, fails: the comment collected from the first page is
    in the local list when the second request fails, and the call
    returns the empty list instead. *)
Lemma partial_results_dropped :
  failure (commentThreads_list Sample.quota "v1") = Some "quotaExceeded" /\
  collected_so_far Sample.quota "v1"
  = [comment_data "v1" (Sample.thread "A" 0 [])] /\
  fst (get_video_comments Sample.quota "v1") = [] /\
  fst (get_video_comments Sample.quota "v1")
  <> collected_so_far Sample.quota "v1".
Proof. repeat split. vm_compute. discriminate. Qed.

(** ** Supplemental replies *)

Lemma nodup_app_inv {A} (l1 l2 : list A) :
  List.NoDup (l1 ++ l2) ->
  List.NoDup l1 /\ List.NoDup l2 /\ forall a, In a l1 -> ~ In a l2.
Proof.
  intros H. split; [now apply NoDup_app_remove_r in H |].
  split; [now apply NoDup_app_remove_l in H |].
  induction l1 as [|x l1 IH]; intros a []; cbn in H;
    apply List.NoDup_cons_iff in H as [Hx H].
  - subst. intros Ha. apply Hx, in_app_iff. now right.
  - now apply IH.
Qed.

Lemma already_have_In (x : string) (cs : list Comment.t) :
  already_have x cs = true <-> In x (map Comment.comment_id cs).
Proof.
  unfold already_have. rewrite existsb_exists, in_map_iff.
  split; intros (c & H1 & H2); exists c.
  - apply String.eqb_eq in H2. auto.
  - split; [exact H2 | now apply String.eqb_eq].
Qed.

Lemma already_have_false (x : string) (cs : list Comment.t) :
  already_have x cs = false <-> ~ In x (map Comment.comment_id cs).
Proof.
  rewrite <- already_have_In. now destruct (already_have x cs).
Qed.

(** Replies already collected leave the list as it is. *)
Lemma fold_supplemental_known video_id parent replies cs :
  (forall r, In r replies -> In (Reply.id r) (map Comment.comment_id cs)) ->
  fold_left (add_supplemental video_id parent) replies cs = cs.
Proof.
  induction replies as [|r replies IH]; intros H; [reflexivity |].
  cbn [fold_left]. unfold add_supplemental at 2.
  rewrite (proj2 (already_have_In _ _) (H r (or_introl eq_refl))).
  apply IH. intros r' Hr'. apply H. now right.
Qed.

(** A listing without repeated identifiers adds, in its order, the
    replies that were not collected before. *)
Lemma fold_supplemental_new video_id parent replies : forall cs,
  List.NoDup (map Reply.id replies) ->
  fold_left (add_supplemental video_id parent) replies cs
  = cs ++ map (reply_data video_id parent)
            (List.filter (fun r => negb (already_have (Reply.id r) cs)) replies).
Proof.
  induction replies as [|r replies IH]; intros cs Hnd; cbn [fold_left].
  - cbn. now rewrite app_nil_r.
  - cbn [map] in Hnd. apply List.NoDup_cons_iff in Hnd as [Hr Hnd].
    unfold add_supplemental at 2. cbn [List.filter].
    destruct (already_have (Reply.id r) cs) eqn:Hhave; cbn [negb].
    + now apply IH.
    + rewrite (IH _ Hnd), <- app_assoc. cbn [map app]. do 3 f_equal.
      apply filter_ext_in. intros r' Hr'. f_equal.
      unfold already_have. rewrite existsb_app. cbn.
      destruct (String.eqb_spec (Reply.id r) (Reply.id r')) as [E|];
        [| now rewrite !orb_false_r].
      exfalso. apply Hr. rewrite E. now apply in_map.
Qed.

Lemma filter_is_reply_inline video_id parent replies :
  List.filter Comment.is_reply (map (reply_data video_id parent) replies)
  = map (reply_data video_id parent) replies.
Proof. induction replies as [|r l IH]; cbn; [reflexivity | now rewrite IH]. Qed.

Lemma filter_none {A} (f : A -> bool) (l : list A) :
  (forall x, In x l -> f x = false) -> List.filter f l = [].
Proof.
  induction l as [|x l IH]; intros H; [reflexivity |].
  cbn. rewrite (H x (or_introl eq_refl)). apply IH. intros y Hy. apply H. now right.
Qed.

Lemma filter_all {A} (f : A -> bool) (l : list A) :
  (forall x, In x l -> f x = true) -> List.filter f l = l.
Proof.
  induction l as [|x l IH]; intros H; [reflexivity |].
  cbn. rewrite (H x (or_introl eq_refl)). f_equal. apply IH. intros y Hy. apply H. now right.
Qed.

Lemma filter_permutation {A} (f : A -> bool) (l l' : list A) :
  Permutation l l' -> Permutation (List.filter f l) (List.filter f l').
Proof.
  induction 1 as [| x l l' _ IH | x y l | l l' l'' _ IH1 _ IH2]; cbn.
  - constructor.
  - destruct (f x); [now constructor | exact IH].
  - destruct (f x), (f y); try reflexivity. constructor.
  - now transitivity (List.filter f l').
Qed.

(** C3. Two-source completeness: a video whose thread listing delivers
    one thread with [totalReplyCount] 5 and three replies inline, while
    the reply listing of that thread delivers those three and two
    others (six distinct identifiers with the thread's own), yields the
    top-level comment followed by exactly five reply rows for that
    parent: the three inline ones, then the two others, each once. *)
Theorem two_source_completeness (yt : youtube) (video_id : string)
    (item : Thread.t) (inline extra : list Reply.t) :
  failure (commentThreads_list yt video_id) = None ->
  reached (commentThreads_list yt video_id) = [item] ->
  Thread.totalReplyCount item = Some 5 ->
  inline_replies item = inline ->
  length inline = 3%nat -> length extra = 2%nat ->
  Permutation (reached (comments_list yt (Thread.id item))) (inline ++ extra) ->
  List.NoDup (Thread.id item :: map Reply.id (inline ++ extra)) ->
  let out := fst (get_video_comments yt video_id) in
  let replies := List.filter Comment.is_reply out in
  out = comment_data video_id item :: replies /\
  length replies = 5%nat /\
  List.NoDup (map Comment.comment_id replies) /\
  Permutation replies
    (map (reply_data video_id (Thread.id item)) (inline ++ extra)) /\
  exists others,
    Permutation others extra /\
    replies = map (reply_data video_id (Thread.id item)) (inline ++ others).
Proof.
  intros Hf Hitems Htotal Hinline Hlen3 Hlen2 Hperm Hnd out replies.
  set (parent := Thread.id item) in *.
  set (listing := reached (comments_list yt parent)) in *.
  set (cs0 := comment_data video_id item
              :: map (reply_data video_id parent) inline).
  set (new := fun r : Reply.t => negb (already_have (Reply.id r) cs0)).
  assert (Hids : map Comment.comment_id cs0 = parent :: map Reply.id inline).
  { unfold cs0. cbn. f_equal. rewrite map_map. reflexivity. }
  apply List.NoDup_cons_iff in Hnd as [Hparent Hnd].
  rewrite map_app in Hparent, Hnd.
  assert (Hold : forall r, In r inline -> new r = false).
  { intros r Hr. unfold new. apply negb_false_iff, already_have_In.
    rewrite Hids. right. now apply in_map. }
  assert (Hnew : forall r, In r extra -> new r = true).
  { intros r Hr. unfold new. apply negb_true_iff, already_have_false.
    rewrite Hids. intros [E | Hin].
    - apply Hparent. rewrite E. apply in_app_iff. right. now apply in_map.
    - apply nodup_app_inv in Hnd as (_ & _ & Hdisj).
      apply (Hdisj _ Hin). now apply in_map. }
  assert (Hout : out = cs0 ++ map (reply_data video_id parent)
                                (List.filter new listing)).
  { unfold out. rewrite get_video_comments_rows, Hf, Hitems.
    unfold collect. cbn [fold_left]. unfold add_thread, supplemental.
    assert (Hmore : needs_more item = true).
    { apply needs_more_spec. rewrite Htotal, Hinline, Hlen3. cbn. lia. }
    rewrite Hmore. unfold inline_rows. rewrite Hinline. fold parent listing.
    cbn [app]. fold cs0. apply fold_supplemental_new.
    apply (Permutation_NoDup (l := map Reply.id (inline ++ extra))).
    - symmetry. now apply Permutation_map.
    - now rewrite map_app. }
  assert (Hothers : Permutation (List.filter new listing) extra).
  { rewrite (filter_permutation new _ _ Hperm), List.filter_app.
    now rewrite (filter_none _ _ Hold), (filter_all _ _ Hnew). }
  assert (Hreplies : replies = map (reply_data video_id parent)
                                 (inline ++ List.filter new listing)).
  { unfold replies. rewrite Hout. unfold cs0. cbn [app List.filter comment_data
      Comment.is_reply]. rewrite List.filter_app, !filter_is_reply_inline.
    now rewrite map_app. }
  assert (Hperm' : Permutation replies
                     (map (reply_data video_id parent) (inline ++ extra))).
  { rewrite Hreplies. apply Permutation_map.
    now apply Permutation_app_head. }
  repeat split.
  - rewrite Hreplies, Hout. unfold cs0. now rewrite map_app.
  - rewrite (Permutation_length Hperm'), length_map, length_app. lia.
  - apply (Permutation_NoDup (l := map Reply.id (inline ++ extra))).
    + rewrite (Permutation_map Comment.comment_id Hperm'), map_map.
      reflexivity.
    + now rewrite map_app.
  - exact Hperm'.
  - exists (List.filter new listing). split; [exact Hothers | exact Hreplies].
Qed.

Lemma two_source_completeness_witness :
  let out := fst (get_video_comments Sample.five_replies "v1") in
  let replies := List.filter Comment.is_reply out in
  length replies = 5%nat /\ List.NoDup (map Comment.comment_id replies).
Proof.
  assert (Hnd : List.NoDup ["T"; "r1"; "r2"; "r3"; "r4"; "r5"]).
  { repeat constructor; cbn; intuition discriminate. }
  pose proof (two_source_completeness Sample.five_replies "v1"
    (Sample.thread "T" 5 [Sample.reply "r1"; Sample.reply "r2"; Sample.reply "r3"])
    [Sample.reply "r1"; Sample.reply "r2"; Sample.reply "r3"]
    [Sample.reply "r4"; Sample.reply "r5"]
    eq_refl eq_refl eq_refl eq_refl eq_refl eq_refl (Permutation_refl _) Hnd)
    as H.
  exact (conj (proj1 (proj2 H)) (proj1 (proj2 (proj2 H)))).
Defined.

(** ** Output order *)

(** A reply listing that delivers one new reply, possibly along with
    replies collected before and more than once, adds that reply. *)
Lemma fold_supplemental_one video_id parent (new : Reply.t) replies : forall cs,
  In new replies ->
  ~ In (Reply.id new) (map Comment.comment_id cs) ->
  (forall r, In r replies ->
     In (Reply.id r) (map Comment.comment_id cs) \/ r = new) ->
  fold_left (add_supplemental video_id parent) replies cs
  = cs ++ [reply_data video_id parent new].
Proof.
  induction replies as [|r replies IH]; intros cs Hin Hnew Hall; [destruct Hin |].
  cbn [fold_left]. unfold add_supplemental at 2.
  destruct (Hall r (or_introl eq_refl)) as [Hknown | ->].
  - rewrite (proj2 (already_have_In _ _) Hknown).
    destruct Hin as [-> | Hin]; [contradiction |].
    apply IH; auto. intros r' Hr'. apply Hall. now right.
  - rewrite (proj2 (already_have_false _ _) Hnew).
    apply fold_supplemental_known. intros r' Hr'.
    rewrite map_app, in_app_iff.
    destruct (Hall r' (or_intror Hr')) as [H | ->]; [now left |].
    right. now left.
Qed.

(** C6. Output order within a video: with two threads A then B in
    thread-page order, A having the inline reply rA1 and the
    supplemental reply rA2, B having the inline reply rB1 and no more,
    [get_video_comments] returns A, rA1, rA2, B, rB1. *)
Theorem output_order (yt : youtube) (video_id : string)
    (A B : Thread.t) (rA1 rA2 rB1 : Reply.t) :
  failure (commentThreads_list yt video_id) = None ->
  reached (commentThreads_list yt video_id) = [A; B] ->
  inline_replies A = [rA1] ->
  inline_replies B = [rB1] ->
  1 < default 0 (Thread.totalReplyCount A) ->
  default 0 (Thread.totalReplyCount B) <= 1 ->
  In rA2 (reached (comments_list yt (Thread.id A))) ->
  (forall r, In r (reached (comments_list yt (Thread.id A))) ->
     Reply.id r = Reply.id rA1 \/ r = rA2) ->
  Reply.id rA2 <> Thread.id A ->
  Reply.id rA2 <> Reply.id rA1 ->
  fst (get_video_comments yt video_id)
  = [ comment_data video_id A;
      reply_data video_id (Thread.id A) rA1;
      reply_data video_id (Thread.id A) rA2;
      comment_data video_id B;
      reply_data video_id (Thread.id B) rB1 ].
Proof.
  intros Hf Hitems HA HB HmoreA HmoreB Hin Hall Hne1 Hne2.
  rewrite get_video_comments_rows, Hf, Hitems.
  unfold collect. cbn [fold_left]. unfold add_thread, supplemental, inline_rows.
  assert (EA : needs_more A = true).
  { apply needs_more_spec. rewrite HA. cbn. lia. }
  assert (EB : needs_more B = false).
  { apply not_true_is_false. rewrite needs_more_spec, HB. cbn. lia. }
  rewrite EA, EB, HA, HB. cbn [map app fold_left].
  rewrite (fold_supplemental_one video_id (Thread.id A) rA2); [reflexivity | | |].
  - exact Hin.
  - cbn. intros [E | [E | []]]; congruence.
  - intros r Hr. destruct (Hall r Hr) as [E | E]; [| now right].
    left. cbn. right. left. now symmetry.
Qed.

Lemma output_order_witness :
  map Comment.comment_id (fst (get_video_comments Sample.two_threads "v1"))
  = ["A"; "rA1"; "rA2"; "B"; "rB1"].
Proof.
  rewrite (output_order Sample.two_threads "v1"
    (Sample.thread "A" 2 [Sample.reply "rA1"])
    (Sample.thread "B" 1 [Sample.reply "rB1"])
    (Sample.reply "rA1") (Sample.reply "rA2") (Sample.reply "rB1")
    eq_refl eq_refl eq_refl eq_refl).
  - reflexivity.
  - cbn. lia.
  - cbn. lia.
  - cbn. auto.
  - cbn. intros r [<- | [<- | []]]; auto.
  - discriminate.
  - discriminate.
Defined.

(** ** What a run writes *)

Lemma writes_app (a b : list action) : writes (a ++ b) = writes a ++ writes b.
Proof.
  induction a as [|x a IH]; [reflexivity |].
  destruct x; cbn; now rewrite IH.
Qed.

Lemma writes_Do (l : list effect) : writes (map Do l) = [].
Proof. induction l; cbn; auto. Qed.

Lemma scrape_video_writes yt n i video acc :
  writes (actions (scrape_video yt n i video acc)) = writes (actions acc).
Proof.
  unfold scrape_video.
  destruct (get_video_comments yt (Video.video_id video)) as [cs effs].
  cbn [actions]. rewrite !writes_app, writes_Do.
  destruct (i <? n)%nat; cbn; now rewrite app_nil_r.
Qed.

Lemma scrape_loop_writes yt n videos : forall i acc,
  writes (actions (scrape_loop yt n i videos acc)) = writes (actions acc).
Proof.
  induction videos as [|video videos IH]; intros i acc; cbn [scrape_loop];
    [reflexivity |].
  now rewrite IH, scrape_video_writes.
Qed.

(** The only file of a run holds the rows of all videos, and exists only
    if there is a row. *)
Lemma scrape_comments_writes key yt timestamp query max_videos output_file :
  writes (scrape_comments key yt timestamp query max_videos output_file)
  = if key_missing key then []
    else match run_rows yt (fst (search_videos yt query max_videos)) with
         | [] => []
         | rows => [(output_path timestamp output_file, rows)]
         end.
Proof.
  unfold scrape_comments. destruct (key_missing key); [reflexivity |].
  destruct (search_videos yt query max_videos) as [videos searched].
  cbn [fst]. destruct videos as [|video videos].
  - cbn [run_rows flat_map app writes]. rewrite !writes_app, writes_Do.
    reflexivity.
  - rewrite scrape_loop_rows. cbn [all_comments app].
    set (acc := scrape_loop _ _ _ _ _).
    assert (Hacc : writes (actions acc) = []).
    { unfold acc. rewrite scrape_loop_writes. cbn [actions writes].
      rewrite writes_app, writes_Do. reflexivity. }
    destruct (run_rows yt (video :: videos)); rewrite writes_app, Hacc;
      reflexivity.
Qed.

(** C9. Total collection failure.  A failing search makes
    [search_videos] return no video; with no video the run prints "No
    videos found." after the search and does nothing else; with videos
    but no comment row it ends with "No comments collected."; in both
    cases, and when the key is missing, no file is written.  A file is
    written only when there is at least one row, and then it holds the
    rows of the run. *)
Theorem total_collection_failure (key : option string) (yt : youtube)
    (timestamp query : string) (max_videos : Z) (output_file : option string) :
  let acts := scrape_comments key yt timestamp query max_videos output_file in
  let videos := fst (search_videos yt query max_videos) in
  let searched := snd (search_videos yt query max_videos) in
  let rows := run_rows yt videos in
  (forall e, search_list yt query max_videos = Raised e ->
     videos = [] /\
     searched = [Execute (SearchList query max_videos);
                 Print (MsgSearchError e)]) /\
  (key_missing key = true -> acts = [Do (Print MsgNoApiKey)]) /\
  (key_missing key = false -> videos = [] ->
     acts = [MakeDirs "data"; Do (Print (MsgSearching query))]
            ++ map Do searched ++ [Do (Print MsgNoVideosFound)]) /\
  (key_missing key = false -> videos <> [] -> rows = [] ->
     exists before,
       acts = before ++ [Do (Print MsgNoCommentsCollected)]) /\
  (rows = [] -> writes acts = []) /\
  (forall file rows', In (file, rows') (writes acts) ->
     rows' = rows /\ rows' <> []) /\
  (key_missing key = false -> rows <> [] ->
     writes acts = [(output_path timestamp output_file, rows)]).
Proof.
  intros acts videos searched rows.
  pose proof (scrape_comments_writes key yt timestamp query max_videos
                output_file) as Hw.
  fold acts videos rows in Hw.
  repeat split.
  - unfold videos, search_videos. now rewrite H.
  - unfold searched, search_videos. now rewrite H.
  - intros Hk. unfold acts, scrape_comments. now rewrite Hk.
  - intros Hk Hv. unfold acts, scrape_comments. rewrite Hk.
    unfold videos, searched in *.
    destruct (search_videos yt query max_videos) as [vs ss]. cbn [fst snd] in *.
    subst vs. now rewrite <- app_assoc.
  - intros Hk Hv Hr. unfold acts, scrape_comments. rewrite Hk.
    unfold rows, videos in *.
    destruct (search_videos yt query max_videos) as [vs ss]. cbn [fst] in *.
    destruct vs as [|v vs]; [contradiction |].
    rewrite scrape_loop_rows. cbn [all_comments app]. rewrite Hr. eauto.
  - intros Hr. rewrite Hw, Hr. now destruct (key_missing key).
  - rewrite Hw in H. destruct (key_missing key); [destruct H |].
    destruct rows; [destruct H |]. destruct H as [[= _ <-] | []]. reflexivity.
  - rewrite Hw in H. destruct (key_missing key); [destruct H |].
    destruct rows; [destruct H |]. destruct H as [[= _ <-] | []]. discriminate.
  - intros Hk Hr. rewrite Hw, Hk. now destruct rows.
Qed.

Lemma total_collection_failure_witness :
  scrape_comments (Some "key") Sample.no_search "20250105_1200" "NYC" 50 None
  = [MakeDirs "data"; Do (Print (MsgSearching "NYC"));
     Do (Execute (SearchList "NYC" 50));
     Do (Print (MsgSearchError "quotaExceeded"));
     Do (Print MsgNoVideosFound)] /\
  writes (scrape_comments (Some "key") Sample.quota "20250105_1200" "NYC" 50
            None) = [].
Proof.
  split.
  - exact (proj1 (proj2 (proj2
      (total_collection_failure (Some "key") Sample.no_search
         "20250105_1200" "NYC" 50 None))) eq_refl eq_refl).
  - exact (proj1 (proj2 (proj2 (proj2 (proj2
      (total_collection_failure (Some "key") Sample.quota
         "20250105_1200" "NYC" 50 None))))) eq_refl).
Defined.

(** ** Enrichment defaults and row decoration *)




Lemma in_run_rows yt videos row :
  In row (run_rows yt videos) <->
  exists video c,
    In video videos /\
    In c (fst (get_video_comments yt (Video.video_id video))) /\
    row = decorate video c.
Proof.
  unfold run_rows, video_rows. rewrite in_flat_map. split.
  - intros (video & Hv & (c & <- & Hc)%in_map_iff). now exists video, c.
  - intros (video & c & Hv & Hc & ->). exists video.
    split; [exact Hv | now apply in_map].
Qed.



Lemma ids_add_supplemental_incl video_id parent cs r x :
  In x (ids cs) -> In x (ids (add_supplemental video_id parent cs r)).
Proof.
  unfold add_supplemental. destruct (already_have _ _); [auto |].
  rewrite map_app, in_app_iff. auto.
Qed.

(** The check against the collected comments keeps the list free of
    repeated identifiers. *)
Lemma supplemental_nodup video_id parent replies : forall cs,
  List.NoDup (ids cs) ->
  List.NoDup (ids (fold_left (add_supplemental video_id parent) replies cs)).
Proof.
  induction replies as [|r replies IH]; intros cs Hnd; [exact Hnd |].
  cbn [fold_left]. apply IH. unfold add_supplemental.
  destruct (already_have (Reply.id r) cs) eqn:Hhave; [exact Hnd |].
  rewrite map_app. apply List.NoDup_app; [exact Hnd | now repeat constructor |].
  intros x Hx [<- | []]. now apply already_have_false in Hhave.
Qed.

Lemma supplemental_ids video_id parent replies x : forall cs,
  In x (ids (fold_left (add_supplemental video_id parent) replies cs)) ->
  In x (ids cs) \/
  exists r, In r replies /\ Reply.id r = x /\ ~ In x (ids cs).
Proof.
  induction replies as [|r replies IH]; intros cs Hx; [now left |].
  cbn [fold_left] in Hx. apply IH in Hx as [Hx | (r' & Hr' & <- & Hnew)].
  - unfold add_supplemental in Hx.
    destruct (already_have (Reply.id r) cs) eqn:Hhave; [now left |].
    rewrite map_app, in_app_iff in Hx. destruct Hx as [Hx | [<- | []]];
      [now left |].
    right. exists r. split; [now left |]. split; [reflexivity |].
    now apply already_have_false.
  - right. exists r'. split; [now right |]. split; [reflexivity |].
    intros Hin. apply Hnew. now apply ids_add_supplemental_incl.
Qed.

Lemma ids_thread_rows video_id item cs :
  ids (cs ++ comment_data video_id item :: inline_rows video_id item)
  = ids cs ++ thread_ids item.
Proof.
  rewrite map_app. cbn [map]. unfold thread_ids, inline_rows.
  now rewrite map_map.
Qed.

Lemma add_thread_ids yt video_id cs item x :
  In x (ids (add_thread yt video_id cs item)) ->
  In x (ids cs) \/ In x (thread_ids item) \/ extra yt item x.
Proof.
  unfold add_thread. intros [H | (r & Hr & <- & Hnew)]%supplemental_ids;
    rewrite ids_thread_rows, in_app_iff in *.
  - tauto.
  - right. right. exists r. split; [exact Hr |]. split; [reflexivity |].
    intros Hin. apply Hnew. right. unfold thread_ids. now right.
Qed.

Lemma collect_ids yt video_id items x : forall cs,
  In x (ids (fold_left (add_thread yt video_id) items cs)) ->
  In x (ids cs) \/
  exists item, In item items /\ (In x (thread_ids item) \/ extra yt item x).
Proof.
  induction items as [|item items IH]; intros cs Hx; [now left |].
  cbn [fold_left] in Hx. apply IH in Hx as [Hx | (item' & Hin & H)].
  - apply add_thread_ids in Hx as [Hx | Hx]; [now left |].
    right. exists item. split; [now left | exact Hx].
  - right. exists item'. split; [now right | exact H].
Qed.

Lemma add_thread_nodup yt video_id cs item :
  List.NoDup (ids cs) -> List.NoDup (thread_ids item) ->
  (forall x, In x (thread_ids item) -> ~ In x (ids cs)) ->
  List.NoDup (ids (add_thread yt video_id cs item)).
Proof.
  intros Hcs Hitem Hdisj. unfold add_thread. apply supplemental_nodup.
  rewrite ids_thread_rows. apply List.NoDup_app; [exact Hcs | exact Hitem |].
  intros x Hx Hx'. now apply (Hdisj x).
Qed.

Section Uniqueness.

Variable yt : youtube.

(** [listed] stands for every identifier that the thread listing
    delivers during the run. *)
Variable listed : list string.

Lemma collect_nodup video_id items : forall cs,
  (forall item x, In item items -> extra yt item x -> ~ In x listed) ->
  (forall item x, In item items -> In x (thread_ids item) -> In x listed) ->
  List.NoDup (ids cs) ->
  List.NoDup (flat_map thread_ids items) ->
  (forall x, In x (ids cs) -> In x listed ->
             ~ In x (flat_map thread_ids items)) ->
  List.NoDup (ids (fold_left (add_thread yt video_id) items cs)).
Proof.
  induction items as [|item items IH]; intros cs Hextra Hlisted Hcs Hnd Hold;
    [exact Hcs |].
  cbn [fold_left flat_map] in *.
  apply nodup_app_inv in Hnd as (Hitem & Hitems & Hdisj).
  apply IH.
  - intros item' x Hin. apply Hextra. now right.
  - intros item' x Hin. apply Hlisted. now right.
  - apply add_thread_nodup; [exact Hcs | exact Hitem |].
    intros x Hx Hin. apply (Hold x Hin).
    + apply (Hlisted item); [now left | exact Hx].
    + apply in_app_iff. now left.
  - exact Hitems.
  - intros x Hx Hl Hin.
    apply add_thread_ids in Hx as [Hx | [Hx | Hx]].
    + apply (Hold x Hx Hl). apply in_app_iff. now right.
    + now apply (Hdisj x).
    + apply (Hextra item x); [now left | exact Hx | exact Hl].
Qed.

End Uniqueness.

Lemma row_ids yt video :
  map Row.comment_id (video_rows yt video)
  = ids (fst (get_video_comments yt (Video.video_id video))).
Proof. unfold video_rows. now rewrite map_map. Qed.

Section Run.

Variable yt : youtube.
Variable universe : list string.
Hypothesis Howned : replies_owned yt universe.

Lemma listed_in_run video_id item x :
  In video_id universe ->
  In item (reached (commentThreads_list yt video_id)) ->
  In x (thread_ids item) -> In x (run_listed yt universe).
Proof.
  intros Hv Hitem Hx. unfold run_listed. apply in_flat_map.
  exists video_id. split; [exact Hv |]. unfold listed_ids.
  apply in_flat_map. now exists item.
Qed.

Lemma extra_not_listed video_id item x :
  In video_id universe ->
  In item (reached (commentThreads_list yt video_id)) ->
  extra yt item x -> ~ In x (run_listed yt universe).
Proof.
  intros Hv Hitem (r & Hr & <- & Hnew).
  destruct (Howned video_id item r Hv Hitem Hr) as [Hin | [Hnot _]];
    [contradiction | exact Hnot].
Qed.

Lemma video_ids_origin video_id x :
  In x (ids (fst (get_video_comments yt video_id))) ->
  exists item,
    In item (reached (commentThreads_list yt video_id)) /\
    (In x (thread_ids item) \/ extra yt item x).
Proof.
  rewrite get_video_comments_rows. destruct (failure _); [intros [] |].
  unfold collect. now intros [[] | H]%collect_ids.
Qed.

Lemma video_ids_nodup video_id :
  In video_id universe ->
  List.NoDup (listed_ids yt video_id) ->
  List.NoDup (ids (fst (get_video_comments yt video_id))).
Proof.
  intros Hv Hnd. rewrite get_video_comments_rows.
  destruct (failure _); [constructor |].
  apply (collect_nodup yt (run_listed yt universe)).
  - intros item x Hitem. now apply (extra_not_listed video_id).
  - intros item x Hitem. now apply (listed_in_run video_id).
  - constructor.
  - exact Hnd.
  - intros x [].
Qed.

Lemma run_ids_origin videos x :
  In x (map Row.comment_id (run_rows yt videos)) ->
  exists video item,
    In video videos /\
    In item (reached (commentThreads_list yt (Video.video_id video))) /\
    (In x (thread_ids item) \/ extra yt item x).
Proof.
  intros (row & <- & (video & c & Hv & Hc & ->)%in_run_rows)%in_map_iff.
  cbn [decorate Row.comment_id].
  destruct (video_ids_origin (Video.video_id video) (Comment.comment_id c))
    as (item & Hitem & H); [now apply in_map |].
  now exists video, item.
Qed.

Lemma run_nodup videos :
  (forall video, In video videos -> In (Video.video_id video) universe) ->
  List.NoDup (run_listed yt (map Video.video_id videos)) ->
  List.NoDup (map Row.comment_id (run_rows yt videos)).
Proof.
  induction videos as [|video videos IH]; intros Hin Hnd; [constructor |].
  cbn [map run_listed flat_map] in Hnd.
  apply nodup_app_inv in Hnd as (Hvideo & Hrest & Hdisj).
  assert (Hv : In (Video.video_id video) universe) by (apply Hin; now left).
  cbn [run_rows flat_map]. rewrite map_app, row_ids.
  apply List.NoDup_app.
  - now apply video_ids_nodup.
  - apply IH; [| exact Hrest]. intros v Hv'. apply Hin. now right.
  - intros x (item1 & Hitem1 & H1)%video_ids_origin
             (video2 & item2 & Hv2 & Hitem2 & H2)%run_ids_origin.
    assert (Hv2' : In (Video.video_id video2) universe)
      by (apply Hin; now right).
    assert (Hlisted1 : forall y, In y (thread_ids item1) ->
                                 In y (listed_ids yt (Video.video_id video))).
    { intros y Hy. unfold listed_ids. apply in_flat_map. now exists item1. }
    assert (Hlisted2 : forall y, In y (thread_ids item2) ->
              In y (run_listed yt (map Video.video_id videos))).
    { intros y Hy. unfold run_listed. apply in_flat_map.
      exists (Video.video_id video2). split; [now apply in_map |].
      unfold listed_ids. apply in_flat_map. now exists item2. }
    destruct H1 as [H1 | H1], H2 as [H2 | H2].
    + apply (Hdisj x); auto.
    + apply (extra_not_listed _ _ _ Hv2' Hitem2 H2).
      now apply (listed_in_run (Video.video_id video) item1).
    + apply (extra_not_listed _ _ _ Hv Hitem1 H1).
      now apply (listed_in_run (Video.video_id video2) item2).
    + destruct H1 as (r1 & Hr1 & <- & Hnew1).
      destruct H2 as (r2 & Hr2 & E & _).
      destruct (Howned _ item1 r1 Hv Hitem1 Hr1) as [? | [_ Hother]];
        [contradiction |].
      apply (Hother _ item2 Hv2' Hitem2).
      * intros E'. apply (Hdisj (Thread.id item1)).
        -- apply Hlisted1. now left.
        -- rewrite <- E'. apply Hlisted2. now left.
      * rewrite <- E. now apply in_map.
Qed.

End Run.

(** The supplemental loop itself never repeats an identifier. *)
Lemma replies_loop_nodup video_id parent p st :
  List.NoDup (ids (comments st)) ->
  List.NoDup (ids (comments (fst (replies_loop video_id parent p st)))).
Proof.
  intros Hnd.
  destruct (steps_replies_loop video_id parent p st) as (st' & E & Hc & _).
  rewrite E. cbn [fst]. rewrite Hc. now apply supplemental_nodup.
Qed.

(** C1, as the code has it.  The retriever filters only the replies it
    fetches from the reply listing: such a reply is emitted only if no
    comment already collected for the video has its identifier, so that
    loop keeps the list free of repeats.  The export of a run has no
    repeated [comment_id] provided the remote delivers identifiers
    consistently: the thread listing delivers none twice over the run's
    videos (top-level comments and inline replies together), and every
    reply of a reply listing is an inline reply of its thread or is
    delivered nowhere else. *)
Theorem identifier_uniqueness (key : option string) (yt : youtube)
    (timestamp query : string) (max_videos : Z) (output_file : option string) :
  (forall video_id parent p st,
     List.NoDup (ids (comments st)) ->
     List.NoDup (ids (comments (fst (replies_loop video_id parent p st))))) /\
  let video_ids :=
    map Video.video_id (fst (search_videos yt query max_videos)) in
  List.NoDup (run_listed yt video_ids) ->
  replies_owned yt video_ids ->
  forall file rows,
    In (file, rows)
       (writes (scrape_comments key yt timestamp query max_videos output_file)) ->
    List.NoDup (map Row.comment_id rows).
Proof.
  split; [exact replies_loop_nodup |].
  intros video_ids Hnd Howned file rows Hfile.
  rewrite scrape_comments_writes in Hfile.
  destruct (key_missing key); [destruct Hfile |].
  destruct (run_rows yt _) as [|row0 rows0] eqn:Hrows; [destruct Hfile |].
  destruct Hfile as [[= _ <-] | []]. rewrite <- Hrows.
  apply (run_nodup yt video_ids Howned); [| exact Hnd].
  intros video Hv. now apply in_map.
Qed.

Lemma two_threads_owned : replies_owned Sample.two_threads ["v1"].
Proof.
  intros video_id item r [<- | []] [<- | [<- | []]] Hr; vm_compute in Hr;
    [| destruct Hr].
  destruct Hr as [<- | [<- | []]]; [left; cbn; auto |].
  right. split.
  - vm_compute. intuition discriminate.
  - intros video_id' item' [<- | []] [<- | [<- | []]] Hne; [now destruct Hne |].
    vm_compute. tauto.
Qed.

Lemma identifier_uniqueness_witness :
  List.NoDup
    (map Row.comment_id (run_rows Sample.two_threads [Sample.sample_video])).
Proof.
  apply (proj2 (identifier_uniqueness (Some "key") Sample.two_threads
                  "20250105_1200" "NYC" 50 None))
    with (file := "data/youtube_comments_20250105_1200.csv").
  - vm_compute. repeat constructor; cbn; intuition discriminate.
  - exact two_threads_owned.
  - vm_compute. left. reflexivity.
Defined.

(** C1, as stated, fails: when the thread listing delivers the same
    thread on two pages, the written file holds its identifier twice. *)
Lemma repeated_thread_exported_twice :
  exists file rows,
    In (file, rows)
       (writes (scrape_comments (Some "key") Sample.repeated "20250105_1200"
                  "NYC" 50 None)) /\
    map Row.comment_id rows = ["A"; "A"] /\
    ~ List.NoDup (map Row.comment_id rows).
Proof.
  eexists. eexists. split; [vm_compute; left; reflexivity |].
  split; [reflexivity |].
  cbn. intros H. apply List.NoDup_cons_iff in H as [H _]. apply H. now left.
Qed.

Lemma parent_consistency_witness :
  exists top,
    In top (fst (get_video_comments Sample.two_threads "v1")) /\
    Comment.is_reply top = false /\ Comment.comment_id top = "A".
Proof.
  destruct (parent_consistency Sample.two_threads "v1"
              (reply_data "v1" "A" (Sample.reply "rA2"))) as [_ H].
  { vm_compute. right. right. left. reflexivity. }
  destruct (H "A" eq_refl) as (top & Hin & Hflag & Hid & _).
  exists top. auto.
Defined.

Lemma supplemental_fetch_policy_witness :
  In (Execute (CommentsList "A"))
     (snd (get_video_comments Sample.two_threads "v1")) /\
  ~ In (Execute (CommentsList "B"))
       (snd (get_video_comments Sample.two_threads "v1")).
Proof.
  split.
  - apply (supplemental_fetch_policy Sample.two_threads "v1" "A").
    exists (Sample.thread "A" 2 [Sample.reply "rA1"]).
    split; [now left |]. split; [reflexivity | cbn; lia].
  - intros H.
    apply (supplemental_fetch_policy Sample.two_threads "v1" "B") in H
      as (item & [<- | [<- | []]] & Hid & Hlt); [discriminate |].
    cbn in Hlt. lia.
Defined.

Example scrape_two_threads :
  writes (scrape_comments (Some "key") Sample.two_threads "20250105_1200"
            "NYC" 50 None)
  = [("data/youtube_comments_20250105_1200.csv",
      run_rows Sample.two_threads [Sample.sample_video])].
Proof. vm_compute. reflexivity. Qed.

(* ===================================================================== *)
(** * Further properties *)
(* ===================================================================== *)

(** ** Discovery and enrichment *)

Lemma find_app {A} (f : A -> bool) (l1 l2 : list A) :
  List.find f (l1 ++ l2)
  = match List.find f l1 with
    | Some x => Some x
    | None => List.find f l2
    end.
Proof.
  induction l1 as [|x l1 IH]; [reflexivity |].
  cbn. now destruct (f x).
Qed.

Lemma details_fold_lookup (items : list VideoResource.t) (video_id : string) :
  forall m : gmap string Detail.t,
    fold_left
      (fun video_details item =>
         <[VideoResource.id item := detail_of item]> video_details)
      items m !! video_id
    = match last_with_id video_id items with
      | Some item => Some (detail_of item)
      | None => m !! video_id
      end.
Proof.
  unfold last_with_id.
  induction items as [|item items IH]; intros m; [reflexivity |].
  cbn [fold_left rev]. rewrite IH, find_app.
  destruct (List.find _ (rev items)); [reflexivity |].
  cbn [List.find].
  destruct (String.eqb_spec (VideoResource.id item) video_id) as [<- | Hne].
  - apply lookup_insert_eq.
  - now apply lookup_insert_ne.
Qed.

(** The mapping of [get_video_details] after a successful request: an
    identifier maps to the values of the last response item that carries
    it, and is absent when no item does. *)
Theorem video_details_lookup (yt : youtube) (video_ids : list string)
    (response : option (list VideoResource.t)) (video_id : string) :
  video_ids <> [] ->
  videos_list yt (String.concat "," video_ids) = Done response ->
  fst (get_video_details yt video_ids) !! video_id
  = detail_of <$> last_with_id video_id (default [] response).
Proof.
  intros Hne Hcall. unfold get_video_details.
  destruct video_ids as [|v vs]; [contradiction |].
  rewrite Hcall. cbn [fst]. rewrite details_fold_lookup.
  now destruct (last_with_id _ _).
Qed.

Lemma video_details_lookup_witness :
  fst (get_video_details detailed ["v1"]) !! "v1"
  = Some (detail_of (sample_details 25)).
Proof.
  rewrite (video_details_lookup detailed ["v1"]
             (Some [sample_details 10; sample_details 25]) "v1").
  - reflexivity.
  - discriminate.
  - reflexivity.
Defined.

Lemma video_stubs_nth (items : list SearchResult.t) : forall (k : nat) (rank : Z),
  nth_error (video_stubs rank items) k
  = (fun item =>
       {| Video.video_id := SearchResult.videoId item;
          Video.relevance_rank := rank + Z.of_nat k;
          Video.title := SearchResult.title item;
          Video.channel := SearchResult.channelTitle item;
          Video.video_published_at := SearchResult.publishedAt item;
          Video.detail := None |}) <$> nth_error items k.
Proof.
  induction items as [|item items IH]; intros k rank.
  - now destruct k.
  - destruct k as [|k]; cbn [video_stubs nth_error].
    + cbn. now rewrite Z.add_0_r.
    + rewrite IH. destruct (nth_error items k); [| reflexivity].
      cbn. do 2 f_equal. lia.
Qed.

Lemma video_stubs_length (items : list SearchResult.t) : forall rank,
  length (video_stubs rank items) = length items.
Proof. induction items; intros rank; cbn; auto. Qed.

Lemma enrich_same_stub details stub : same_stub (enrich details stub) stub.
Proof.
  unfold enrich, same_stub. now destruct (details !! Video.video_id stub).
Qed.

Lemma search_videos_done yt query max_results response :
  search_list yt query max_results = Done response ->
  let stubs := video_stubs 1 (default [] response) in
  fst (search_videos yt query max_results)
  = map (enrich (fst (get_video_details yt (map Video.video_id stubs)))) stubs.
Proof.
  intros Hs stubs. unfold search_videos. rewrite Hs. fold stubs.
  now destruct (get_video_details yt _).
Qed.

(** [search_videos] returns one video per item of the search response,
    in the order of the response: the video at 0-based position [k]
    has rank [k + 1] and the identifier, title, channel and publish time
    of the item at position [k]. *)
Theorem search_videos_ranks (yt : youtube) (query : string) (max_results : Z)
    (response : option (list SearchResult.t)) :
  search_list yt query max_results = Done response ->
  let items := default [] response in
  let videos := fst (search_videos yt query max_results) in
  length videos = length items /\
  forall k item,
    nth_error items k = Some item ->
    exists video,
      nth_error videos k = Some video /\ same_stub video (stub_at k item).
Proof.
  intros Hs items videos. unfold videos.
  rewrite (search_videos_done _ _ _ _ Hs). fold items. split.
  - now rewrite length_map, video_stubs_length.
  - intros k item Hk. rewrite nth_error_map, video_stubs_nth, Hk. cbn.
    eexists. split; [reflexivity |].
    replace (1 + Z.of_nat k) with (Z.of_nat k + 1) by lia.
    apply enrich_same_stub.
Qed.

Lemma search_videos_ranks_witness :
  exists video,
    nth_error (fst (search_videos no_details "NYC" 50)) 1 = Some video /\
    same_stub video (stub_at 1 (Sample.found "v2")).
Proof.
  exact (proj2 (search_videos_ranks no_details "NYC" 50 _ eq_refl) 1%nat
           (Sample.found "v2") eq_refl).
Defined.

Lemma video_stubs_ids (items : list SearchResult.t) : forall rank,
  map Video.video_id (video_stubs rank items) = map SearchResult.videoId items.
Proof.
  induction items as [|item items IH]; intros rank; [reflexivity |].
  cbn. now rewrite IH.
Qed.

Lemma video_stubs_no_detail (items : list SearchResult.t) : forall rank stub,
  In stub (video_stubs rank items) -> Video.detail stub = None.
Proof.
  induction items as [|item items IH]; intros rank stub; [intros [] |].
  intros [<- | H]; [reflexivity | now apply IH in H].
Qed.

Lemma enrich_empty (stub : Video.t) : enrich ∅ stub = stub.
Proof. unfold enrich. now rewrite lookup_empty. Qed.

(** A failing details request does not fail discovery: [search_videos]
    prints the error and returns every video of the search response, in
    order, without the detail keys. *)
Theorem details_failure_keeps_videos (yt : youtube) (query : string)
    (max_results : Z) (response : option (list SearchResult.t)) (e : string) :
  search_list yt query max_results = Done response ->
  let items := default [] response in
  let id := String.concat "," (map SearchResult.videoId items) in
  items <> [] ->
  videos_list yt id = Raised e ->
  search_videos yt query max_results
  = (video_stubs 1 items,
     [Execute (SearchList query max_results); Execute (VideosList id);
      Print (MsgDetailsError e)]) /\
  forall video, In video (video_stubs 1 items) -> Video.detail video = None.
Proof.
  intros Hs items id Hne Hd. split; [| apply video_stubs_no_detail].
  unfold search_videos, get_video_details. rewrite Hs. fold items.
  rewrite video_stubs_ids. fold id.
  destruct (map SearchResult.videoId items) eqn:Hids.
  { destruct items; [contradiction | discriminate]. }
  rewrite Hd. f_equal.
  rewrite <- (map_id (video_stubs 1 items)) at 2.
  apply map_ext. apply enrich_empty.
Qed.

Lemma details_failure_keeps_videos_witness :
  map Video.video_id (fst (search_videos no_details "NYC" 50)) = ["v1"; "v2"] /\
  snd (search_videos no_details "NYC" 50)
  = [Execute (SearchList "NYC" 50); Execute (VideosList "v1,v2");
     Print (MsgDetailsError "quotaExceeded")].
Proof.
  destruct (details_failure_keeps_videos no_details "NYC" 50 _ "quotaExceeded"
              eq_refl) as [H _]; [discriminate | reflexivity |].
  rewrite H. split; reflexivity.
Defined.

(** The requests of [search_videos] when the search succeeds: with no
    item in the response nothing more is requested; otherwise exactly one
    details request follows, for the identifiers of the response joined
    by commas in rank order, and the only other effect is the error line
    when that request fails. *)
Theorem search_videos_requests (yt : youtube) (query : string)
    (max_results : Z) (response : option (list SearchResult.t)) :
  search_list yt query max_results = Done response ->
  let items := default [] response in
  let id := String.concat "," (map SearchResult.videoId items) in
  snd (search_videos yt query max_results)
  = Execute (SearchList query max_results) ::
    match items with
    | [] => []
    | _ =>
        Execute (VideosList id) ::
        match videos_list yt id with
        | Done _ => []
        | Raised e => [Print (MsgDetailsError e)]
        end
    end.
Proof.
  intros Hs items id. unfold search_videos, get_video_details.
  rewrite Hs. fold items. rewrite video_stubs_ids.
  destruct items as [|item items']; [reflexivity |].
  cbn [map]. fold id.
  change (String.concat "," (SearchResult.videoId item
            :: map SearchResult.videoId items')) with id.
  now destruct (videos_list yt id).
Qed.

Lemma search_videos_requests_witness :
  snd (search_videos detailed "NYC" 50)
  = [Execute (SearchList "NYC" 50); Execute (VideosList "v1")].
Proof.
  exact (search_videos_requests detailed "NYC" 50 _ eq_refl).
Defined.

Lemma in_search_videos yt query max_results video :
  In video (fst (search_videos yt query max_results)) ->
  exists response stub,
    search_list yt query max_results = Done response /\
    In stub (video_stubs 1 (default [] response)) /\
    video = enrich
              (fst (get_video_details yt
                      (map SearchResult.videoId (default [] response))))
              stub.
Proof.
  destruct (search_list yt query max_results) as [response | e] eqn:Hs.
  - rewrite (search_videos_done _ _ _ _ Hs), video_stubs_ids.
    intros (stub & <- & Hstub)%in_map_iff. now exists response, stub.
  - unfold search_videos. rewrite Hs. intros [].
Qed.

(** A video is enriched exactly by the details response: after both
    requests succeed, every returned video carries the values of the
    last details item with its identifier, and no detail keys when the
    details response has no such item. *)
Theorem search_videos_enriched (yt : youtube) (query : string)
    (max_results : Z) (response : option (list SearchResult.t))
    (details : option (list VideoResource.t)) (video : Video.t) :
  search_list yt query max_results = Done response ->
  videos_list yt
    (String.concat "," (map SearchResult.videoId (default [] response)))
  = Done details ->
  In video (fst (search_videos yt query max_results)) ->
  Video.detail video
  = detail_of <$> last_with_id (Video.video_id video) (default [] details).
Proof.
  intros Hs Hd (response' & stub & Hs' & Hstub & ->)%in_search_videos.
  rewrite Hs in Hs'. injection Hs' as <-.
  assert (Hnone : Video.detail stub = None)
    by now apply video_stubs_no_detail in Hstub.
  assert (Hid : Video.video_id
                  (enrich (fst (get_video_details yt
                     (map SearchResult.videoId (default [] response)))) stub)
                = Video.video_id stub) by apply enrich_same_stub.
  rewrite Hid. unfold enrich, get_video_details.
  destruct (map SearchResult.videoId (default [] response)) eqn:Hids.
  { destruct (default [] response); [destruct Hstub | discriminate]. }
  rewrite Hd. cbn [fst]. rewrite details_fold_lookup, lookup_empty.
  now destruct (last_with_id _ _).
Qed.

Lemma search_videos_enriched_witness :
  exists video,
    In video (fst (search_videos detailed "NYC" 50)) /\
    Video.view_count video = 25 /\ Video.duration video = 138.
Proof.
  assert (Hin : In (enrich (fst (get_video_details detailed ["v1"]))
                      Sample.sample_video)
                   (fst (search_videos detailed "NYC" 50)))
    by (vm_compute; auto).
  pose proof (search_videos_enriched detailed "NYC" 50 _ _ _
                eq_refl eq_refl Hin) as H.
  eexists. split; [exact Hin |].
  unfold Video.view_count, Video.duration. rewrite H.
  split; vm_compute; reflexivity.
Defined.

Lemma details_values yt video_ids video_id d :
  fst (get_video_details yt video_ids) !! video_id = Some d ->
  exists item, d = detail_of item.
Proof.
  unfold get_video_details. destruct video_ids as [|v vs].
  { cbn. now rewrite lookup_empty. }
  destruct (videos_list yt _) as [response | e]; cbn [fst].
  - rewrite details_fold_lookup, lookup_empty.
    destruct (last_with_id _ _) as [item|]; [| discriminate].
    intros [= <-]. now exists item.
  - now rewrite lookup_empty.
Qed.

(** Every video that [search_videos] returns has a duration that is not
    negative: 0 when it has no details, and otherwise what
    [parse_duration] returns. *)
Theorem video_duration_nonneg (yt : youtube) (query : string)
    (max_results : Z) (video : Video.t) :
  In video (fst (search_videos yt query max_results)) ->
  0 <= Video.duration video.
Proof.
  intros (response & stub & _ & Hstub & ->)%in_search_videos.
  apply video_stubs_no_detail in Hstub.
  unfold Video.duration, enrich.
  destruct (_ !! Video.video_id stub) as [d|] eqn:Hd.
  - apply details_values in Hd as [item ->].
    cbn [from_option detail_of Detail.duration Video.detail].
    apply DurationFacts.parse_duration_nonneg.
  - rewrite Hstub. cbn. lia.
Qed.

Lemma video_duration_nonneg_witness :
  0 <= Video.duration
         (enrich (fst (get_video_details detailed ["v1"])) Sample.sample_video).
Proof.
  apply (video_duration_nonneg detailed "NYC" 50). vm_compute. auto.
Defined.


(** ** More on the retriever *)

Lemma filter_top_supplemental video_id parent replies : forall cs,
  List.filter is_top (fold_left (add_supplemental video_id parent) replies cs)
  = List.filter is_top cs.
Proof.
  induction replies as [|r replies IH]; intros cs; [reflexivity |].
  cbn [fold_left]. rewrite IH. unfold add_supplemental.
  destruct (already_have _ _); [reflexivity |].
  rewrite List.filter_app. cbn. now rewrite app_nil_r.
Qed.

Lemma filter_top_inline video_id parent replies :
  List.filter is_top (map (reply_data video_id parent) replies) = [].
Proof. induction replies; cbn; auto. Qed.

Lemma filter_top_add_thread yt video_id cs item :
  List.filter is_top (add_thread yt video_id cs item)
  = List.filter is_top cs ++ [comment_data video_id item].
Proof.
  unfold add_thread, inline_rows. rewrite filter_top_supplemental.
  rewrite List.filter_app. cbn [List.filter is_top comment_data
    Comment.is_reply negb].
  now rewrite filter_top_inline.
Qed.

Lemma filter_top_collect yt video_id items : forall cs,
  List.filter is_top (fold_left (add_thread yt video_id) items cs)
  = List.filter is_top cs ++ map (comment_data video_id) items.
Proof.
  induction items as [|item items IH]; intros cs; cbn [fold_left map].
  - now rewrite app_nil_r.
  - now rewrite IH, filter_top_add_thread, <- app_assoc.
Qed.

(** When the thread listing is walked to its end, the top-level rows
    returned are exactly the threads reached, one row each, in page
    order, whatever the reply listings deliver and whether or not they
    fail. *)
Theorem top_level_rows (yt : youtube) (video_id : string) :
  failure (commentThreads_list yt video_id) = None ->
  List.filter is_top (fst (get_video_comments yt video_id))
  = map (comment_data video_id) (reached (commentThreads_list yt video_id)).
Proof.
  intros Hf. rewrite get_video_comments_rows, Hf. apply filter_top_collect.
Qed.

Lemma top_level_rows_witness :
  map Comment.comment_id
    (List.filter is_top (fst (get_video_comments flaky_replies "v1")))
  = ["A"; "B"].
Proof.
  now rewrite (top_level_rows flaky_replies "v1" eq_refl).
Defined.

Lemma supplemental_extends video_id parent replies : forall cs,
  exists more,
    fold_left (add_supplemental video_id parent) replies cs = cs ++ more.
Proof.
  induction replies as [|r replies IH]; intros cs; cbn [fold_left].
  - exists []. now rewrite app_nil_r.
  - destruct (IH (add_supplemental video_id parent cs r)) as [more ->].
    unfold add_supplemental. destruct (already_have _ _); [now exists more |].
    eexists. now rewrite <- app_assoc.
Qed.

Lemma add_thread_extends yt video_id cs item :
  exists more,
    add_thread yt video_id cs item
    = cs ++ comment_data video_id item :: inline_rows video_id item ++ more.
Proof.
  unfold add_thread.
  destruct (supplemental_extends video_id (Thread.id item)
              (supplemental yt item)
              (cs ++ comment_data video_id item :: inline_rows video_id item))
    as [more ->].
  exists more. now rewrite <- app_assoc.
Qed.

Lemma collect_extends yt video_id items : forall cs,
  exists more, fold_left (add_thread yt video_id) items cs = cs ++ more.
Proof.
  induction items as [|item items IH]; intros cs; cbn [fold_left].
  - exists []. now rewrite app_nil_r.
  - destruct (IH (add_thread yt video_id cs item)) as [more ->].
    destruct (add_thread_extends yt video_id cs item) as [more' ->].
    eexists. now rewrite <- app_assoc.
Qed.

(** When the thread listing is walked to its end, each thread reached
    appears in the result as its top-level comment immediately followed
    by all of its inline replies, in the order of the response. *)
Theorem inline_block (yt : youtube) (video_id : string) (item : Thread.t) :
  failure (commentThreads_list yt video_id) = None ->
  In item (reached (commentThreads_list yt video_id)) ->
  exists before after,
    fst (get_video_comments yt video_id)
    = before ++ comment_data video_id item :: inline_rows video_id item
      ++ after.
Proof.
  intros Hf Hin. rewrite get_video_comments_rows, Hf. unfold collect.
  apply in_split in Hin as (items1 & items2 & ->).
  rewrite fold_left_app. cbn [fold_left].
  destruct (add_thread_extends yt video_id
              (fold_left (add_thread yt video_id) items1 []) item)
    as [more Hitem].
  destruct (collect_extends yt video_id items2
              (add_thread yt video_id
                 (fold_left (add_thread yt video_id) items1 []) item))
    as [more' ->].
  rewrite Hitem. exists (fold_left (add_thread yt video_id) items1 []),
    (more ++ more').
  rewrite <- !app_assoc. cbn [app]. now rewrite <- app_assoc.
Qed.

Lemma inline_block_witness :
  exists before after,
    fst (get_video_comments Sample.two_threads "v1")
    = before ++ comment_data "v1" (Sample.thread "B" 1 [Sample.reply "rB1"])
      :: inline_rows "v1" (Sample.thread "B" 1 [Sample.reply "rB1"])
      ++ after.
Proof.
  apply (inline_block Sample.two_threads "v1"); [reflexivity |].
  cbn. auto.
Defined.

Lemma ids_supplemental_incl video_id parent replies x : forall cs,
  In x (ids cs) ->
  In x (ids (fold_left (add_supplemental video_id parent) replies cs)).
Proof.
  intros cs. destruct (supplemental_extends video_id parent replies cs)
    as [more ->].
  rewrite map_app, in_app_iff. auto.
Qed.

Lemma ids_supplemental_complete video_id parent replies r : forall cs,
  In r replies ->
  In (Reply.id r)
     (ids (fold_left (add_supplemental video_id parent) replies cs)).
Proof.
  induction replies as [|r' replies IH]; intros cs; [intros [] |].
  intros [-> | Hin]; cbn [fold_left]; [| now apply IH].
  apply ids_supplemental_incl. unfold add_supplemental.
  destruct (already_have (Reply.id r) cs) eqn:Hhave.
  - now apply already_have_In.
  - rewrite map_app, in_app_iff. right. now left.
Qed.

Lemma ids_collect_incl yt video_id items x : forall cs,
  In x (ids cs) -> In x (ids (fold_left (add_thread yt video_id) items cs)).
Proof.
  intros cs. destruct (collect_extends yt video_id items cs) as [more ->].
  rewrite map_app, in_app_iff. auto.
Qed.

Lemma ids_add_thread_complete yt video_id cs item x :
  In x (thread_ids item ++ map Reply.id (supplemental yt item)) ->
  In x (ids (add_thread yt video_id cs item)).
Proof.
  unfold add_thread. intros [Hx | (r & <- & Hr)%in_map_iff]%in_app_iff.
  - apply ids_supplemental_incl. rewrite ids_thread_rows, in_app_iff. auto.
  - now apply ids_supplemental_complete.
Qed.

(** When the thread listing is walked to its end, the identifiers in the
    result are exactly those the remote delivered for the video: none is
    lost and none is made up.  Replies reached in a reply listing before
    it failed count as delivered. *)
Theorem delivered_ids_collected (yt : youtube) (video_id x : string) :
  failure (commentThreads_list yt video_id) = None ->
  In x (ids (fst (get_video_comments yt video_id)))
  <-> In x (delivered yt video_id).
Proof.
  intros Hf. rewrite get_video_comments_rows, Hf.
  unfold collect, delivered. rewrite in_flat_map. split.
  - intros [[] | (item & Hin & H)]%collect_ids. exists item.
    split; [exact Hin |]. rewrite in_app_iff.
    destruct H as [H | (r & Hr & <- & _)]; [now left |].
    right. now apply in_map.
  - intros (item & Hin & Hx). apply in_split in Hin as (items1 & items2 & ->).
    rewrite fold_left_app. cbn [fold_left]. apply ids_collect_incl.
    now apply ids_add_thread_complete.
Qed.

Lemma delivered_ids_collected_witness :
  In "rA2" (ids (fst (get_video_comments flaky_replies "v1"))).
Proof.
  apply (delivered_ids_collected flaky_replies "v1" "rA2" eq_refl).
  vm_compute. auto 10.
Defined.

(** *** Failures *)

Lemma replies_trace_prints comment_id p m :
  ~ In (Print m) (replies_trace comment_id p).
Proof.
  induction p as [e | items | items next IH]; cbn;
    intros [[=] | [[=] | H]]; auto.
Qed.

Lemma in_item_trace_error yt parent e item :
  In (Print (MsgRepliesError parent e)) (item_trace yt item)
  <-> needs_more item = true /\ Thread.id item = parent /\
      failure (comments_list yt (Thread.id item)) = Some e.
Proof.
  unfold item_trace. destruct (needs_more item); [| cbn; intuition discriminate].
  rewrite in_app_iff. split.
  - intros [H | H]; [now apply replies_trace_prints in H |].
    destruct (failure _); [| destruct H].
    destruct H as [[= <- <-] | []]. auto.
  - intros (_ & <- & ->). right. now left.
Qed.

Lemma in_threads_trace_error yt video_id parent e p :
  In (Print (MsgRepliesError parent e)) (threads_trace yt video_id p)
  <-> exists item, In item (reached p) /\ needs_more item = true /\
                   Thread.id item = parent /\
                   failure (comments_list yt (Thread.id item)) = Some e.
Proof.
  assert (Hitems : forall items,
    In (Print (MsgRepliesError parent e)) (flat_map (item_trace yt) items)
    <-> exists item, In item items /\ needs_more item = true /\
                     Thread.id item = parent /\
                     failure (comments_list yt (Thread.id item)) = Some e).
  { intros items. rewrite in_flat_map.
    split; intros (item & Hin & H); exists item;
      (split; [exact Hin | now apply (in_item_trace_error yt parent e item)]). }
  induction p as [e' | items | items next IH]; cbn [threads_trace reached In].
  - split; [intros [[=] | []] | intros (item & [] & _)].
  - rewrite <- Hitems. intuition congruence.
  - rewrite in_app_iff. cbn [In]. rewrite IH, Hitems. split.
    + intros [[=] | [(item & Hin & H) | [[=] | (item & Hin & H)]]];
        exists item; (split; [apply in_app_iff; auto | exact H]).
    + intros (item & [Hin | Hin]%in_app_iff & H); right; [left | right; right];
        now exists item.
Qed.

(** A failing reply listing is reported for its thread and for nothing
    else: the line "Error fetching replies for comment ..." with error
    [e] is printed for [parent] exactly when a thread reached has that
    identifier, more replies than it has inline, and a reply listing
    that ends with [e]. *)
Theorem reply_failure_reported (yt : youtube) (video_id parent e : string) :
  In (Print (MsgRepliesError parent e)) (snd (get_video_comments yt video_id))
  <-> exists item,
        In item (reached (commentThreads_list yt video_id)) /\
        Thread.id item = parent /\
        Z.of_nat (length (inline_replies item))
        < default 0 (Thread.totalReplyCount item) /\
        failure (comments_list yt parent) = Some e.
Proof.
  assert (H : In (Print (MsgRepliesError parent e))
                (snd (get_video_comments yt video_id))
              <-> In (Print (MsgRepliesError parent e))
                    (threads_trace yt video_id
                       (commentThreads_list yt video_id))).
  { pose proof (get_video_comments_spec yt video_id) as Hs. cbv zeta in Hs.
    destruct (failure _) as [e'|]; [| destruct Hs as (cc & rc & Hs)];
      rewrite Hs; cbn [snd]; rewrite in_app_iff; cbn;
      [destruct (contains _ _) |]; intuition congruence. }
  rewrite H, in_threads_trace_error.
  split; intros (item & Hin & H1 & H2 & H3); exists item.
  - subst parent. repeat split; auto. now apply needs_more_spec.
  - subst parent. repeat split; auto. now apply needs_more_spec.
Qed.

Lemma reply_failure_reported_witness :
  In (Print (MsgRepliesError "A" "backendError"))
     (snd (get_video_comments flaky_replies "v1")).
Proof.
  apply (reply_failure_reported flaky_replies "v1" "A" "backendError").
  exists (Sample.thread "A" 3 [Sample.reply "rA1"]).
  split; [cbn; auto |]. split; [reflexivity |]. split; [cbn; lia | reflexivity].
Defined.

Lemma threads_trace_failure yt video_id p e :
  failure p = Some e ->
  exists before,
    threads_trace yt video_id p
    = before ++ [Execute (CommentThreadsList video_id)].
Proof.
  induction p as [e' | items | items next IH]; cbn [failure threads_trace].
  - intros _. now exists [].
  - discriminate.
  - intros (before & ->)%IH.
    exists (Execute (CommentThreadsList video_id)
            :: flat_map (item_trace yt) (default [] items)
            ++ Sleep 500 :: before).
    cbn [app]. f_equal. rewrite <- app_assoc. reflexivity.
Qed.

(** After a failing request of the thread listing nothing more is asked
    for that video: the failing request and the line that reports it
    are the last two effects of the call. *)
Theorem failing_request_is_last (yt : youtube) (video_id e : string) :
  failure (commentThreads_list yt video_id) = Some e ->
  exists before message,
    snd (get_video_comments yt video_id)
    = before ++ [Execute (CommentThreadsList video_id); Print message].
Proof.
  intros Hf. pose proof (get_video_comments_spec yt video_id) as H.
  cbv zeta in H. rewrite Hf in H. rewrite H. cbn [snd].
  destruct (threads_trace_failure yt video_id _ e Hf) as [before ->].
  eexists before, _. now rewrite <- app_assoc.
Qed.

Lemma failing_request_is_last_witness :
  exists before message,
    snd (get_video_comments Sample.quota "v1")
    = before ++ [Execute (CommentThreadsList "v1"); Print message].
Proof.
  exact (failing_request_is_last Sample.quota "v1" "quotaExceeded" eq_refl).
Defined.


(** ** Counters and totals *)

Lemma count_length (p : Comment.t -> bool) (cs : list Comment.t) :
  count p cs = Z.of_nat (length (List.filter p cs)).
Proof.
  unfold count. f_equal. induction cs as [|c cs IH]; [reflexivity |].
  rewrite filter_cons. cbn [List.filter].
  destruct (p c) eqn:Hp; case_decide; try congruence; cbn; now rewrite IH.
Qed.

Lemma count_app (p : Comment.t -> bool) (a b : list Comment.t) :
  count p (a ++ b) = count p a + count p b.
Proof. rewrite !count_length, List.filter_app, length_app. lia. Qed.

Lemma count_single (p : Comment.t -> bool) (c : Comment.t) :
  count p [c] = if p c then 1 else 0.
Proof. rewrite count_length. cbn. now destruct (p c). Qed.

Lemma count_split (cs : list Comment.t) :
  count (fun c => negb (Comment.is_reply c)) cs + count Comment.is_reply cs
  = Z.of_nat (length cs).
Proof.
  rewrite !count_length. induction cs as [|c cs IH]; [reflexivity |].
  cbn [List.filter length]. destruct (Comment.is_reply c); cbn [negb length];
    lia.
Qed.

Lemma keeps_ret {A} (a : A) : keeps (ret a).
Proof. now intros st H. Qed.

Lemma keeps_raise {A} e : keeps (@raise frame A e).
Proof. now intros st H. Qed.

Lemma keeps_get : keeps get.
Proof. now intros st H. Qed.

Lemma keeps_emit e : keeps (emit e).
Proof. now intros st H. Qed.

Lemma keeps_bind {A B} (m : M frame A) (k : A -> M frame B) :
  keeps m -> (forall a, keeps (k a)) -> keeps (bind m k).
Proof.
  intros Hm Hk st Hst. unfold bind. specialize (Hm st Hst).
  destruct (m st) as [st' [a | e]]; cbn [fst] in *; [now apply Hk | exact Hm].
Qed.

Lemma keeps_try {A} (m : M frame A) (h : string -> M frame A) :
  keeps m -> (forall e, keeps (h e)) -> keeps (try_except m h).
Proof.
  intros Hm Hh st Hst. unfold try_except. specialize (Hm st Hst).
  destruct (m st) as [st' [a | e]]; cbn [fst] in *; [exact Hm | now apply Hh].
Qed.

Lemma keeps_for_each {A} (l : list A) (body : A -> M frame unit) :
  (forall x, keeps (body x)) -> keeps (for_each l body).
Proof.
  intros Hbody. induction l as [|x l IH]; cbn [for_each]; [apply keeps_ret |].
  apply keeps_bind; [apply Hbody | intros _; exact IH].
Qed.

Lemma keeps_append_comment c :
  Comment.is_reply c = false -> keeps (append_comment c).
Proof.
  intros Hc st [H1 H2].
  split; cbn; rewrite count_app, count_single, Hc; cbn; lia.
Qed.

Lemma keeps_append_reply c :
  Comment.is_reply c = true -> keeps (append_reply c).
Proof.
  intros Hc st [H1 H2].
  split; cbn; rewrite count_app, count_single, Hc; cbn; lia.
Qed.

Lemma keeps_replies_loop video_id parent p :
  keeps (replies_loop video_id parent p).
Proof.
  assert (Hbody : forall r, keeps (supplemental_reply video_id parent r)).
  { intros r. unfold supplemental_reply. apply keeps_bind; [apply keeps_get |].
    intros st. destruct (already_have _ _);
      [apply keeps_ret | now apply keeps_append_reply]. }
  induction p as [e | items | items next IH]; cbn [replies_loop];
    repeat (apply keeps_bind; [apply keeps_emit | intros _]).
  - apply keeps_raise.
  - now apply keeps_for_each.
  - apply keeps_bind; [now apply keeps_for_each | intros _; exact IH].
Qed.

Lemma keeps_process_item yt video_id item :
  keeps (process_item yt video_id item).
Proof.
  unfold process_item.
  apply keeps_bind; [now apply keeps_append_comment | intros _].
  apply keeps_bind.
  - destruct (Thread.replies item); [| apply keeps_ret].
    apply keeps_for_each. intros r. now apply keeps_append_reply.
  - intros _. destruct (needs_more item); [| apply keeps_ret].
    apply keeps_try; [apply keeps_replies_loop | intros e; apply keeps_emit].
Qed.

Lemma keeps_threads_loop yt video_id p : keeps (threads_loop yt video_id p).
Proof.
  induction p as [e | items | items next IH]; cbn [threads_loop];
    (apply keeps_bind; [apply keeps_emit | intros _]).
  - apply keeps_raise.
  - apply keeps_for_each. intros item. apply keeps_process_item.
  - apply keeps_bind;
      [apply keeps_for_each; intros item; apply keeps_process_item | intros _].
    apply keeps_bind; [apply keeps_emit | intros _; exact IH].
Qed.

(** The line "Collected ... comments and ... replies" that ends a
    completed retrieval tells the truth: its two numbers are the numbers
    of top-level rows and of reply rows in the returned list, and the
    first is also the number of threads reached. *)
Theorem collected_counts (yt : youtube) (video_id : string) :
  failure (commentThreads_list yt video_id) = None ->
  let cs := fst (get_video_comments yt video_id) in
  let tops := count (fun c => negb (Comment.is_reply c)) cs in
  let replies := count Comment.is_reply cs in
  snd (get_video_comments yt video_id)
  = threads_trace yt video_id (commentThreads_list yt video_id)
    ++ [Print (MsgCollected tops replies)] /\
  tops = Z.of_nat (length (reached (commentThreads_list yt video_id))) /\
  tops + replies = Z.of_nat (length cs).
Proof.
  intros Hf cs tops replies. split; [| split].
  - destruct (steps_threads_loop yt video_id
                (commentThreads_list yt video_id) frame0)
      as (st1 & E & Hc & He).
    assert (Hk : counted st1).
    { replace st1 with (fst (threads_loop yt video_id
                               (commentThreads_list yt video_id) frame0))
        by now rewrite E.
      apply keeps_threads_loop. split; reflexivity. }
    unfold walked in E. rewrite Hf in E.
    assert (Hg : get_video_comments yt video_id
                 = (comments st1,
                    threads_trace yt video_id (commentThreads_list yt video_id)
                    ++ [Print (MsgCollected (comment_count st1)
                                 (reply_count st1))])).
    { unfold get_video_comments, try_block, bind at 1. rewrite E. cbn.
      now rewrite He. }
    unfold tops, replies, cs. rewrite Hg. cbn [fst snd].
    now destruct Hk as [-> ->].
  - unfold tops. rewrite count_length.
    change (fun c => negb (Comment.is_reply c)) with is_top.
    unfold cs. rewrite get_video_comments_rows, Hf.
    unfold collect. rewrite filter_top_collect. cbn.
    now rewrite length_map.
  - apply count_split.
Qed.

Lemma collected_counts_witness :
  snd (get_video_comments Sample.two_threads "v1")
  = threads_trace Sample.two_threads "v1"
      (commentThreads_list Sample.two_threads "v1")
    ++ [Print (MsgCollected 2 3)].
Proof.
  exact (proj1 (collected_counts Sample.two_threads "v1" eq_refl)).
Defined.


Lemma tally_app reply (a b : list Row.t) :
  tally reply (a ++ b) = tally reply a + tally reply b.
Proof. unfold tally. rewrite List.filter_app, length_app. lia. Qed.

Lemma tally_decorate video cs :
  tally false (map (decorate video) cs)
  = count (fun c => negb (Comment.is_reply c)) cs /\
  tally true (map (decorate video) cs) = count Comment.is_reply cs.
Proof.
  rewrite !count_length. unfold tally.
  induction cs as [|c cs [IH1 IH2]]; [now split |].
  cbn [map List.filter decorate Row.is_reply].
  destruct (Comment.is_reply c); cbn [Bool.eqb negb length]; split; lia.
Qed.

Lemma tally_split (rows : list Row.t) :
  tally false rows + tally true rows = Z.of_nat (length rows).
Proof.
  unfold tally. induction rows as [|row rows IH]; [reflexivity |].
  cbn [List.filter length]. destruct (Row.is_reply row); cbn [Bool.eqb length];
    lia.
Qed.

Lemma tallied_scrape_video yt n i video acc :
  tallied acc -> tallied (scrape_video yt n i video acc).
Proof.
  intros [H1 H2]. unfold scrape_video, tallied.
  destruct (get_video_comments yt (Video.video_id video)) as [cs effs].
  cbn [all_comments total_top_comments total_replies].
  rewrite !tally_app. destruct (tally_decorate video cs) as [-> ->].
  now rewrite H1, H2.
Qed.

Lemma tallied_scrape_loop yt n videos : forall i acc,
  tallied acc -> tallied (scrape_loop yt n i videos acc).
Proof.
  induction videos as [|video videos IH]; intros i acc Hacc; [exact Hacc |].
  cbn [scrape_loop]. apply IH. now apply tallied_scrape_video.
Qed.

(** A run that collected rows ends by writing them and printing the
    true totals: the numbers in "Successfully scraped ... comments and
    ... replies" are the numbers of rows of the file that are not, and
    that are, replies; together they are all its rows. *)
Theorem success_totals (key : option string) (yt : youtube)
    (timestamp query : string) (max_videos : Z) (output_file : option string) :
  let rows := run_rows yt (fst (search_videos yt query max_videos)) in
  let path := output_path timestamp output_file in
  key_missing key = false ->
  rows <> [] ->
  (exists before,
     scrape_comments key yt timestamp query max_videos output_file
     = before ++
       [ WriteCsv path fieldnames rows;
         Do (Print (MsgSuccess (tally false rows) (tally true rows)));
         Do (Print (MsgTotalItems (length rows)));
         Do (Print (MsgSavedTo path)) ]) /\
  tally false rows + tally true rows = Z.of_nat (length rows).
Proof.
  intros rows path Hk Hrows. split; [| apply tally_split].
  unfold scrape_comments. rewrite Hk. unfold rows in *.
  destruct (search_videos yt query max_videos) as [videos searched].
  cbn [fst] in *. destruct videos as [|video videos]; [contradiction |].
  set (acc := scrape_loop _ _ _ _ _).
  assert (Hacc : tallied acc).
  { apply tallied_scrape_loop. split; reflexivity. }
  assert (Hall : all_comments acc = run_rows yt (video :: videos)).
  { unfold acc. now rewrite scrape_loop_rows. }
  destruct Hacc as [H1 H2]. rewrite H1, H2, Hall.
  destruct (run_rows yt (video :: videos)) eqn:E; [contradiction |].
  now exists (actions acc).
Qed.

Lemma success_totals_witness :
  exists before,
    scrape_comments (Some "key") Sample.two_threads "20250105_1200" "NYC" 50
      None
    = before ++
      [ WriteCsv "data/youtube_comments_20250105_1200.csv" fieldnames
          (run_rows Sample.two_threads [Sample.sample_video]);
        Do (Print (MsgSuccess 2 3));
        Do (Print (MsgTotalItems 5));
        Do (Print (MsgSavedTo "data/youtube_comments_20250105_1200.csv")) ].
Proof.
  refine (proj1 (success_totals (Some "key") Sample.two_threads
                   "20250105_1200" "NYC" 50 None eq_refl _)).
  vm_compute. discriminate.
Defined.

(** ** Order of the rows *)

Lemma sorted_constant_app (rank : Z) (l1 l2 : list Z) :
  Forall (eq rank) l1 -> StronglySorted Z.le l2 -> Forall (Z.le rank) l2 ->
  StronglySorted Z.le (l1 ++ l2) /\ Forall (Z.le rank) (l1 ++ l2).
Proof.
  intros H1 H2 H3. induction H1 as [|x l1 <- _ [IH1 IH2]]; [now split |].
  cbn [app]. split.
  - constructor; [exact IH1 | exact IH2].
  - constructor; [lia | exact IH2].
Qed.

Lemma video_rows_ranks yt video :
  Forall (eq (Video.relevance_rank video))
    (map Row.relevance_rank (video_rows yt video)).
Proof.
  unfold video_rows. rewrite map_map. apply List.Forall_forall.
  now intros x (c & <- & _)%in_map_iff.
Qed.

Lemma run_rows_sorted yt details items : forall rank,
  let videos := map (enrich details) (video_stubs rank items) in
  StronglySorted Z.le (map Row.relevance_rank (run_rows yt videos)) /\
  Forall (Z.le rank) (map Row.relevance_rank (run_rows yt videos)).
Proof.
  induction items as [|item items IH]; intros rank; cbn zeta.
  - split; constructor.
  - cbn [video_stubs map run_rows flat_map]. rewrite map_app.
    destruct (IH (rank + 1)) as [Hs Hf].
    apply sorted_constant_app.
    + pose proof (video_rows_ranks yt (enrich details
        {| Video.video_id := SearchResult.videoId item;
           Video.relevance_rank := rank;
           Video.title := SearchResult.title item;
           Video.channel := SearchResult.channelTitle item;
           Video.video_published_at := SearchResult.publishedAt item;
           Video.detail := None |})) as H.
      now rewrite (proj1 (proj2 (enrich_same_stub details _))) in H.
    + exact Hs.
    + eapply List.Forall_impl; [| exact Hf]. cbn. intros; lia.
Qed.

(** The rows of the written file come in relevance-rank order: along the
    file the rank never decreases. *)
Theorem rows_in_rank_order (key : option string) (yt : youtube)
    (timestamp query : string) (max_videos : Z) (output_file : option string)
    (file : string) (rows : list Row.t) :
  In (file, rows)
     (writes (scrape_comments key yt timestamp query max_videos output_file)) ->
  StronglySorted Z.le (map Row.relevance_rank rows).
Proof.
  rewrite scrape_comments_writes. destruct (key_missing key); [intros [] |].
  destruct (run_rows yt _) as [|row0 rows0] eqn:Hrows; [intros [] |].
  intros [[= _ <-] | []]. rewrite <- Hrows.
  destruct (search_list yt query max_videos) as [response | e] eqn:Hs.
  - rewrite (search_videos_done _ _ _ _ Hs). apply run_rows_sorted.
  - unfold search_videos. rewrite Hs. constructor.
Qed.

Lemma rows_in_rank_order_witness :
  StronglySorted Z.le
    (map Row.relevance_rank (run_rows Sample.two_threads [Sample.sample_video])).
Proof.
  apply (rows_in_rank_order (Some "key") Sample.two_threads "20250105_1200"
           "NYC" 50 None "data/youtube_comments_20250105_1200.csv").
  vm_compute. auto.
Defined.

(** ** Pauses *)

Lemma sleeps_of_replies_trace parent p ms :
  In (Sleep ms) (replies_trace parent p) -> ms = 200.
Proof.
  induction p as [e | items | items next IH]; cbn;
    intros [[= <-] | [[=] | H]]; auto; contradiction.
Qed.

Lemma sleeps_of_threads_trace yt video_id p ms :
  In (Sleep ms) (threads_trace yt video_id p) -> ms = 200 \/ ms = 500.
Proof.
  assert (Hitems : forall items,
            In (Sleep ms) (flat_map (item_trace yt) items) -> ms = 200).
  { intros items (item & _ & H)%in_flat_map. unfold item_trace in H.
    destruct (needs_more item); [| destruct H].
    apply in_app_iff in H as [H | H];
      [now apply sleeps_of_replies_trace in H |].
    destruct (failure _); [destruct H as [[=] | []] | destruct H]. }
  induction p as [e | items | items next IH]; cbn [threads_trace In].
  - intros [[=] | []].
  - intros [[=] | H]. left. now apply Hitems in H.
  - rewrite in_app_iff. cbn [In].
    intros [[=] | [H | [[= <-] | H]]]; auto. left. now apply Hitems in H.
Qed.

Lemma no_pause_in_retrieval yt video_id :
  List.filter is_pause (map Do (snd (get_video_comments yt video_id))) = [].
Proof.
  apply filter_none. intros a (e & <- & He)%in_map_iff.
  destruct e as [m | ms | r]; try reflexivity. cbn.
  assert (Hms : ms = 200 \/ ms = 500).
  { pose proof (get_video_comments_spec yt video_id) as Hs. cbv zeta in Hs.
    destruct (failure _); [| destruct Hs as (cc & rc & Hs)];
      rewrite Hs in He; cbn [snd] in He;
      apply in_app_iff in He as [He | [[=] | []]];
      now apply sleeps_of_threads_trace in He. }
  destruct Hms as [-> | ->]; reflexivity.
Qed.

Lemma pauses_app (a b : list action) : pauses (a ++ b) = (pauses a + pauses b)%nat.
Proof. unfold pauses. now rewrite List.filter_app, length_app. Qed.

Lemma pauses_scrape_video yt n i video acc :
  pauses (actions (scrape_video yt n i video acc))
  = (pauses (actions acc) + if (i <? n)%nat then 1 else 0)%nat.
Proof.
  unfold scrape_video.
  pose proof (no_pause_in_retrieval yt (Video.video_id video)) as H.
  destruct (get_video_comments yt (Video.video_id video)) as [cs effs].
  cbn [snd] in H. cbn [actions]. rewrite !pauses_app.
  unfold pauses at 3. rewrite H.
  destruct (i <? n)%nat; cbn; lia.
Qed.

Lemma pauses_scrape_loop yt n videos : forall i acc,
  videos <> [] -> (i + length videos = n + 1)%nat ->
  (pauses (actions (scrape_loop yt n i videos acc)) + 1
   = pauses (actions acc) + length videos)%nat.
Proof.
  induction videos as [|video videos IH]; intros i acc Hne Hlen;
    [contradiction |].
  cbn [scrape_loop length] in *. destruct videos as [|video' videos'].
  - cbn [scrape_loop length] in *. rewrite pauses_scrape_video.
    assert (H : (i <? n)%nat = false) by (apply Nat.ltb_ge; lia).
    rewrite H. lia.
  - rewrite IH; [| discriminate | cbn [length] in *; lia].
    rewrite pauses_scrape_video.
    assert (H : (i <? n)%nat = true) by (apply Nat.ltb_lt; cbn [length] in *; lia).
    rewrite H. cbn [length]. lia.
Qed.

Lemma no_pause_in_search yt query max_videos :
  pauses (map Do (snd (search_videos yt query max_videos))) = 0%nat.
Proof.
  unfold pauses. rewrite filter_none; [reflexivity |].
  intros a (e & <- & He)%in_map_iff.
  destruct e as [m | ms | r]; try reflexivity. exfalso.
  unfold search_videos, get_video_details in He.
  destruct (search_list yt query max_videos);
    [| cbn in He; intuition discriminate].
  destruct (map Video.video_id _); [cbn in He; intuition discriminate |].
  destruct (videos_list yt _); cbn in He; intuition discriminate.
Qed.

(** [scrape_comments] pauses for a second between two videos and not
    after the last: a run over [n >= 1] videos makes exactly [n - 1] such
    pauses, whatever the retrievals do. *)
Theorem pauses_between_videos (key : option string) (yt : youtube)
    (timestamp query : string) (max_videos : Z) (output_file : option string) :
  let videos := fst (search_videos yt query max_videos) in
  key_missing key = false ->
  videos <> [] ->
  (pauses (scrape_comments key yt timestamp query max_videos output_file) + 1
   = length videos)%nat.
Proof.
  intros videos Hk Hne. unfold scrape_comments. rewrite Hk.
  pose proof (no_pause_in_search yt query max_videos) as Hsearch.
  unfold videos in *.
  destruct (search_videos yt query max_videos) as [vs searched].
  cbn [fst snd] in *. destruct vs as [|v vs]; [contradiction |].
  set (acc0 := {| all_comments := []; total_top_comments := 0;
                  total_replies := 0; actions := _ |}).
  pose proof (pauses_scrape_loop yt (length (v :: vs)) (v :: vs) 1 acc0 Hne)
    as Hloop.
  assert (H0 : pauses (actions acc0) = 0%nat).
  { unfold acc0. cbn [actions].
    change (pauses ([MakeDirs "data"; Do (Print (MsgSearching query))]
                    ++ map Do searched
                    ++ [Do (Print (MsgFound (length (v :: vs))))]) = 0%nat).
    rewrite !pauses_app, Hsearch. reflexivity. }
  rewrite H0 in Hloop. specialize (Hloop ltac:(lia)).
  set (acc := scrape_loop _ _ _ _ _) in *.
  destruct (all_comments acc); rewrite pauses_app;
    cbn [pauses List.filter is_pause length] in *; lia.
Qed.

Lemma pauses_between_videos_witness :
  pauses (scrape_comments (Some "key") no_details "20250105_1200" "NYC" 50 None)
  = 1%nat.
Proof.
  pose proof (pauses_between_videos (Some "key") no_details "20250105_1200"
                "NYC" 50 None eq_refl) as H.
  cbv zeta in H. specialize (H ltac:(discriminate)).
  change (length (fst (search_videos no_details "NYC" 50))) with 2%nat in H.
  lia.
Defined.


(** *** Requests come after their pause *)

Section Paced.

Variable pause : effect.
Variable request : effect -> Prop.
Hypothesis pause_is_no_request : ~ request pause.

Lemma paced_nil : paced pause request [].
Proof.
  split; [| exact I]. intros before e after H. now destruct before.
Qed.

Lemma paced_app a b :
  paced pause request a -> paced pause request b ->
  paced pause request (a ++ b).
Proof.
  intros [Ha Ha'] [Hb Hb']. split.
  - intros before e after H He.
    apply app_eq_app in H as [l [[-> H] | [-> H]]].
    + destruct l as [|x l].
      * cbn in H. subst b. now destruct Hb'.
      * injection H as <- _. apply (Ha before e l); [| exact He].
        reflexivity.
    + destruct (Hb l e after H He) as [l' ->]. exists (a ++ l').
      now rewrite app_assoc.
  - destruct a; [exact Hb' | exact Ha'].
Qed.

Lemma paced_none l :
  Forall (fun e => ~ request e) l -> paced pause request l.
Proof.
  intros H. split.
  - intros before e after -> He.
    apply List.Forall_app in H as [_ H]. now inversion H.
  - destruct H; [exact I | assumption].
Qed.

Lemma paced_request e : paced pause request [pause; e].
Proof.
  split; [| exact pause_is_no_request].
  intros [|x [|y before]] e' after H He.
  - injection H as <- _. contradiction.
  - injection H as <- _. now exists [].
  - exfalso. cbn in H. injection H as _ _ H. now destruct before.
Qed.

End Paced.

Lemma paced_replies_trace parent p :
  paced (Sleep 200) reply_request (replies_trace parent p).
Proof.
  assert (Hp : ~ reply_request (Sleep 200)) by (intros [? [=]]).
  induction p as [e | items | items next IH]; cbn [replies_trace].
  - rewrite app_nil_r. now apply paced_request.
  - rewrite app_nil_r. now apply paced_request.
  - apply paced_app; [now apply paced_request | exact IH].
Qed.

Lemma paced_items_replies yt items :
  paced (Sleep 200) reply_request (flat_map (item_trace yt) items).
Proof.
  induction items as [|item items IH]; [apply paced_nil |].
  cbn [flat_map]. apply paced_app; [| exact IH].
  unfold item_trace. destruct (needs_more item); [| apply paced_nil].
  apply paced_app; [apply paced_replies_trace |].
  apply paced_none. destruct (failure _); repeat constructor.
  intros [? [=]].
Qed.

Lemma paced_threads_replies yt video_id p :
  paced (Sleep 200) reply_request (threads_trace yt video_id p).
Proof.
  assert (H1 : paced (Sleep 200) reply_request
                 [Execute (CommentThreadsList video_id)]).
  { apply paced_none. repeat constructor. intros [? [=]]. }
  assert (H2 : paced (Sleep 200) reply_request [Sleep 500]).
  { apply paced_none. repeat constructor. intros [? [=]]. }
  induction p as [e | items | items next IH]; cbn [threads_trace].
  - exact H1.
  - apply (paced_app _ _ [_]); [exact H1 | apply paced_items_replies].
  - apply (paced_app _ _ [_]); [exact H1 |].
    apply paced_app; [apply paced_items_replies |].
    apply (paced_app _ _ [_]); [exact H2 | exact IH].
Qed.

Lemma items_no_thread_request yt items :
  Forall (fun e => ~ thread_request e) (flat_map (item_trace yt) items).
Proof.
  apply List.Forall_forall. intros e (item & _ & H)%in_flat_map [v ->].
  unfold item_trace in H. destruct (needs_more item); [| destruct H].
  apply in_app_iff in H as [H | H].
  - clear -H. induction (comments_list yt (Thread.id item)); cbn in H;
      destruct H as [[=] | [[=] | H]]; auto.
  - destruct (failure _); [destruct H as [[=] | []] | destruct H].
Qed.

Lemma paced_threads_rest yt video_id p :
  exists rest,
    threads_trace yt video_id p = Execute (CommentThreadsList video_id) :: rest /\
    paced (Sleep 500) thread_request rest.
Proof.
  assert (Hp : ~ thread_request (Sleep 500)) by (intros [? [=]]).
  induction p as [e | items | items next (rest & Hrest & IH)];
    cbn [threads_trace]; eexists; (split; [reflexivity |]).
  - apply paced_nil.
  - apply paced_none, items_no_thread_request.
  - apply paced_app; [apply paced_none, items_no_thread_request |].
    rewrite Hrest.
    apply (paced_app _ _ [_; _]); [now apply paced_request | exact IH].
Qed.

(** The requests of a retrieval keep their distance: every request of a
    reply listing comes right after a pause of 0.2 s, and every request
    of the thread listing but the first, which opens the call, comes
    right after a pause of 0.5 s. *)
Theorem requests_paced (yt : youtube) (video_id : string) :
  each_after (Sleep 200) reply_request (snd (get_video_comments yt video_id)) /\
  exists rest,
    snd (get_video_comments yt video_id)
    = Execute (CommentThreadsList video_id) :: rest /\
    each_after (Sleep 500) thread_request rest.
Proof.
  assert (H : exists m, snd (get_video_comments yt video_id)
                = threads_trace yt video_id (commentThreads_list yt video_id)
                  ++ [Print m]).
  { pose proof (get_video_comments_spec yt video_id) as Hs. cbv zeta in Hs.
    destruct (failure _); [| destruct Hs as (cc & rc & Hs)]; rewrite Hs;
      eexists; reflexivity. }
  destruct H as [m ->]. split.
  - apply paced_app; [apply paced_threads_replies |].
    apply paced_none. repeat constructor. intros [? [=]].
  - destruct (paced_threads_rest yt video_id
                (commentThreads_list yt video_id)) as (rest & -> & Hrest).
    exists (rest ++ [Print m]). split; [reflexivity |].
    apply paced_app; [exact Hrest |].
    apply paced_none. repeat constructor. intros [? [=]].
Qed.

(** *** Which failure is reported as disabled comments *)

Lemma index_occurs (text e : string) :
  (exists m, String.index 0 text e = Some m)
  <-> exists before after, e = before +:+ text +:+ after.
Proof.
  split.
  - induction e as [|c e IH]; cbn [String.index].
    + destruct text; [| intros [m [=]]]. intros _. now exists "", "".
    + destruct (String.prefix text (String c e)) eqn:Hp.
      * intros _. apply DurationFacts.prefix_split in Hp as [r ->].
        now exists "", r.
      * destruct (String.index 0 text e) as [m|]; [| intros [m [=]]].
        intros _. destruct IH as (before & after & ->); [now exists m |].
        now exists (String c before), after.
  - intros (before & after & ->).
    induction before as [|c before IH].
    + rewrite DurationFacts.append_nil_l.
      destruct (text +:+ after) eqn:E; cbn [String.index].
      * destruct text; [now exists 0%nat | discriminate].
      * rewrite <- E, DurationFacts.prefix_append. now exists 0%nat.
    + rewrite DurationFacts.append_cons. cbn [String.index].
      destruct (String.prefix _ _); [now exists 0%nat |].
      destruct IH as [m ->]. now exists (S m).
Qed.

Lemma contains_occurs (text e : string) :
  contains text e = true
  <-> exists before after, e = before +:+ text +:+ after.
Proof.
  rewrite <- index_occurs. unfold contains.
  destruct (String.index 0 text e) as [m|]; split; try discriminate; eauto.
  intros [m' [=]].
Qed.

(** A failure of the thread listing is reported as "Comments disabled
    for video" exactly when its text has [commentsDisabled] somewhere
    inside; any other failure is reported with its own text. *)
Theorem disabled_comments_reported (yt : youtube) (video_id e : string) :
  failure (commentThreads_list yt video_id) = Some e ->
  exists before message,
    snd (get_video_comments yt video_id) = before ++ [Print message] /\
    (message = MsgCommentsDisabled video_id \/
     message = MsgVideoError video_id e) /\
    (message = MsgCommentsDisabled video_id
     <-> exists l r, e = l +:+ "commentsDisabled" +:+ r).
Proof.
  intros Hf. pose proof (get_video_comments_spec yt video_id) as H.
  cbv zeta in H. rewrite Hf in H. rewrite H. cbn [snd].
  eexists _, _. split; [reflexivity |].
  rewrite <- contains_occurs.
  destruct (contains "commentsDisabled" e); split; auto;
    split; congruence.
Qed.

Lemma disabled_comments_reported_witness :
  exists before message,
    snd (get_video_comments Sample.quota "v1") = before ++ [Print message] /\
    (message = MsgCommentsDisabled "v1" \/
     message = MsgVideoError "v1" "quotaExceeded").
Proof.
  destruct (disabled_comments_reported Sample.quota "v1" "quotaExceeded"
              eq_refl) as (before & message & H1 & H2 & _).
  now exists before, message.
Defined.


(** ** More on the duration parser *)

Module DurationEdges.
Import Duration DurationFacts.

(** The match of the pattern: it succeeds exactly on the texts that
    begin with [PT]; each of its three groups is then absent or a
    non-empty run of digits, and the text is the token made of these
    groups followed by the unmatched rest. *)
Theorem regex_match_shape (s : string) :
  (re_match pattern s = None <-> String.prefix "PT" s = false) /\
  forall gs rest,
    re_match pattern s = Some (gs, rest) ->
    valid_component (gs !! 1%nat) /\ valid_component (gs !! 2%nat) /\
    valid_component (gs !! 3%nat) /\
    s = token (gs !! 1%nat) (gs !! 2%nat) (gs !! 3%nat) +:+ rest.
Proof.
  rewrite re_match_scan. pose proof (scan_spec s) as H.
  destruct (scan s) as [[[[h m] sec] rest0]|].
  - destruct H as (Hh & Hm & Hs & Heq). split.
    + split; [discriminate |]. intros Hp. exfalso.
      rewrite Heq in Hp. unfold token in Hp.
      rewrite !append_assoc in Hp. now rewrite prefix_PT in Hp.
    + intros gs rest [= <- <-].
      assert (E : with_group 3 sec (with_group 2 m (with_group 1 h ∅)) !! 1%nat
                  = h /\
                  with_group 3 sec (with_group 2 m (with_group 1 h ∅)) !! 2%nat
                  = m /\
                  with_group 3 sec (with_group 2 m (with_group 1 h ∅)) !! 3%nat
                  = sec).
      { destruct h, m, sec; cbn [with_group]; simplify_map_eq; auto. }
      destruct E as (-> & -> & ->). auto.
  - split; [tauto | discriminate].
Qed.

(** The seconds end the token: whatever follows a seconds component,
    further well-formed components included, does not count. *)
Theorem seconds_end_token (h m : option string) (ds rest : string) :
  valid_component h -> valid_component m -> digit_string ds ->
  parse_duration (Some (token h m (Some ds) +:+ rest))
  = value h * 3600 + value m * 60 + int ds.
Proof.
  intros Hh Hm Hs. rewrite parse_duration_scan. unfold token.
  rewrite !append_assoc.
  change ("PT" +:+ ?x) with (String "P" (String "T" x)).
  unfold scan. rewrite !Ascii.eqb_refl. cbn [andb].
  destruct h as [h|], m as [m|];
    cbn [render_component valid_component] in *;
    rewrite ?append_assoc, ?append_cons, ?append_nil_l;
    repeat scan_step; reflexivity.
Qed.

Lemma seconds_end_token_witness :
  parse_duration (Some "PT3S2M") = 3.
Proof.
  refine (seconds_end_token None None "3" "2M" I I _).
  split; [discriminate | reflexivity].
Defined.

End DurationEdges.

(** ** The first scraper and the second *)

Lemma walk_spec video_id p : forall comments,
  Youtube.walk video_id p comments
  = (comments ++ map (Youtube.comment_of video_id) (reached p),
     snd (fst (Youtube.walk video_id p comments)),
     failure p).
Proof.
  induction p as [e | items | items next IH]; intros comments;
    cbn [Youtube.walk reached failure].
  - now rewrite app_nil_r.
  - reflexivity.
  - rewrite IH. cbn [fst snd]. now rewrite map_app, app_assoc.
Qed.

Lemma legacy_row_comment_data video_id item :
  legacy_row (comment_data video_id item) = Youtube.comment_of video_id item.
Proof. reflexivity. Qed.

(** On the same thread listing the first scraper returns what the second
    returns as top-level rows, in the same order and without the fields
    it does not know: adding replies changed nothing for the top-level
    comments, and both return nothing when the listing fails. *)
Theorem first_scraper_top_level (yt : youtube) (video_id : string) :
  fst (Youtube.get_video_comments yt video_id)
  = map legacy_row (List.filter is_top (fst (get_video_comments yt video_id))).
Proof.
  unfold Youtube.get_video_comments.
  rewrite walk_spec, get_video_comments_rows.
  destruct (failure (commentThreads_list yt video_id)); [reflexivity |].
  cbn [fst app]. unfold collect. rewrite filter_top_collect. cbn [List.filter app].
  now rewrite map_map.
Qed.

(** Both scrapers discover the same videos in the same order, with the
    same title, channel and publish time. *)
Theorem first_scraper_videos (yt : youtube) (query : string) (max_results : Z) :
  fst (Youtube.search_videos yt query max_results)
  = map legacy_video (fst (search_videos yt query max_results)).
Proof.
  unfold Youtube.search_videos.
  destruct (search_list yt query max_results) as [response | e] eqn:Hs.
  - rewrite (search_videos_done _ _ _ _ Hs). cbn [fst].
    rewrite map_map.
    generalize (fst (get_video_details yt
                  (map Video.video_id (video_stubs 1 (default [] response))))).
    intros details. generalize 1.
    induction (default [] response) as [|item items IH]; intros rank;
      [reflexivity |].
    cbn [map video_stubs]. f_equal; [| apply IH].
    unfold legacy_video.
    destruct (enrich_same_stub details
                {| Video.video_id := SearchResult.videoId item;
                   Video.relevance_rank := rank;
                   Video.title := SearchResult.title item;
                   Video.channel := SearchResult.channelTitle item;
                   Video.video_published_at := SearchResult.publishedAt item;
                   Video.detail := None |})
      as (-> & _ & -> & -> & ->).
    reflexivity.
  - unfold search_videos. now rewrite Hs.
Qed.


(** ** Parents come first *)

Lemma parents_first_snoc cs c :
  parents_first cs ->
  (forall parent, Comment.parent_id c = Some parent ->
                  has_top (Comment.video_id c) parent cs) ->
  parents_first (cs ++ [c]).
Proof.
  intros Hcs Hc before c' after parent Heq Hp.
  destruct after as [|x after _] using rev_ind.
  - apply app_inj_tail in Heq as [<- <-]. now apply Hc.
  - rewrite app_comm_cons, app_assoc in Heq.
    apply app_inj_tail in Heq as [-> _]. now apply (Hcs before c' after).
Qed.

Lemma parents_first_inline video_id parent replies : forall cs,
  parents_first cs -> has_top video_id parent cs ->
  parents_first (cs ++ map (reply_data video_id parent) replies).
Proof.
  induction replies as [|r replies IH]; intros cs Hcs Htop; cbn [map].
  - now rewrite app_nil_r.
  - change (cs ++ ?x :: ?l) with (cs ++ [x] ++ l). rewrite app_assoc.
    apply IH; [| now apply has_top_app].
    apply parents_first_snoc; [exact Hcs |]. now intros p [= <-].
Qed.

Lemma parents_first_supplemental video_id parent replies : forall cs,
  parents_first cs -> has_top video_id parent cs ->
  parents_first (fold_left (add_supplemental video_id parent) replies cs).
Proof.
  induction replies as [|r replies IH]; intros cs Hcs Htop; cbn [fold_left];
    [exact Hcs |].
  unfold add_supplemental at 2.
  destruct (already_have (Reply.id r) cs); [now apply IH |].
  apply IH; [| now apply has_top_app].
  apply parents_first_snoc; [exact Hcs |]. now intros p [= <-].
Qed.

Lemma parents_first_collect yt video_id items : forall cs,
  parents_first cs ->
  parents_first (fold_left (add_thread yt video_id) items cs).
Proof.
  induction items as [|item items IH]; intros cs Hcs; [exact Hcs |].
  cbn [fold_left]. apply IH. unfold add_thread, inline_rows.
  assert (Htop : has_top video_id (Thread.id item)
                   (cs ++ [comment_data video_id item])).
  { exists (comment_data video_id item).
    split; [apply in_app_iff; right; now left | now cbn]. }
  change (cs ++ ?x :: ?l) with (cs ++ [x] ++ l). rewrite app_assoc.
  apply parents_first_supplemental; [| now apply has_top_app].
  apply parents_first_inline; [| exact Htop].
  apply parents_first_snoc; [exact Hcs | discriminate].
Qed.

(** In the list that [get_video_comments] returns, a reply never comes
    before its parent: ahead of every reply there is a top-level record
    of the same video whose [comment_id] is the reply's [parent_id]. *)
Theorem parents_precede_replies (yt : youtube) (video_id : string)
    (before after : list Comment.t) (c : Comment.t) (parent : string) :
  fst (get_video_comments yt video_id) = before ++ c :: after ->
  Comment.parent_id c = Some parent ->
  exists top,
    In top before /\ Comment.is_reply top = false /\
    Comment.comment_id top = parent /\
    Comment.video_id top = Comment.video_id c.
Proof.
  intros Heq Hp.
  assert (H : parents_first (fst (get_video_comments yt video_id))).
  { rewrite get_video_comments_rows. destruct (failure _).
    - intros b c' a p E. now destruct b.
    - apply parents_first_collect. intros b c' a p E. now destruct b. }
  exact (H before c after parent Heq Hp).
Qed.

Lemma parents_precede_replies_witness :
  exists top,
    In top [comment_data "v1" (Sample.thread "A" 2 [Sample.reply "rA1"]);
            reply_data "v1" "A" (Sample.reply "rA1")] /\
    Comment.is_reply top = false /\ Comment.comment_id top = "A".
Proof.
  destruct (parents_precede_replies Sample.two_threads "v1"
              [comment_data "v1" (Sample.thread "A" 2 [Sample.reply "rA1"]);
               reply_data "v1" "A" (Sample.reply "rA1")]
              [comment_data "v1" (Sample.thread "B" 1 [Sample.reply "rB1"]);
               reply_data "v1" "B" (Sample.reply "rB1")]
              (reply_data "v1" "A" (Sample.reply "rA2")) "A"
              eq_refl eq_refl) as (top & Hin & Hflag & Hid & _).
  now exists top.
Defined.

Lemma regex_match_shape_witness :
  exists gs rest,
    Duration.re_match Duration.pattern "PT5Mxyz" = Some (gs, rest) /\
    "PT5Mxyz"
    = Duration.token (gs !! 1%nat) (gs !! 2%nat) (gs !! 3%nat) +:+ rest.
Proof.
  destruct (Duration.re_match Duration.pattern "PT5Mxyz") as [[gs rest]|] eqn:E.
  - exists gs, rest. split; [reflexivity |].
    apply (proj2 (DurationEdges.regex_match_shape "PT5Mxyz") gs rest E).
  - vm_compute in E. discriminate.
Defined.


(** ** The duration parser and the limit of [int] *)

Module DurationLimitFacts.
Import Duration DurationFacts.
Import DurationLimit (Returns, ValueError, over, refused, digits_of, convert).

Lemma group_or_0_read limit (gs : groups) (g : nat) :
  DurationLimit.group_or_0 limit gs g
  = if refused limit (gs !! g) then ValueError (digits_of (gs !! g))
    else Returns (value (gs !! g)).
Proof.
  unfold DurationLimit.group_or_0, DurationLimit.int, refused, digits_of, value.
  now destruct (gs !! g) as [[|c d]|].
Qed.

Lemma groups_lookup (h m sec : option string) :
  let gs := with_group 3 sec (with_group 2 m (with_group 1 h ∅)) in
  gs !! 1%nat = h /\ gs !! 2%nat = m /\ gs !! 3%nat = sec /\
  forall g d, gs !! g = Some d ->
    (g = 1%nat /\ h = Some d) \/ (g = 2%nat /\ m = Some d) \/
    (g = 3%nat /\ sec = Some d).
Proof.
  cbv zeta. repeat split.
  1-3: destruct h, m, sec; cbn [with_group]; simplify_map_eq; reflexivity.
  intros g d Hg.
  destruct (decide (g = 1%nat)) as [-> | H1];
    [left | destruct (decide (g = 2%nat)) as [-> | H2];
            [right; left | destruct (decide (g = 3%nat)) as [-> | H3];
                           [right; right | exfalso]]];
    destruct h, m, sec; cbn [with_group] in Hg; simplify_map_eq; auto.
Qed.

(** The parser through the scanner. *)
Lemma parse_duration_convert limit (s : string) :
  DurationLimit.parse_duration limit (Some s)
  = match scan s with
    | Some (h, m, sec, _) => convert limit h m sec
    | None => Returns 0
    end.
Proof.
  unfold DurationLimit.parse_duration. rewrite re_match_scan.
  destruct s as [|c s]; [reflexivity |].
  destruct (scan (String c s)) as [[[[h m] sec] rest]|]; [| reflexivity].
  rewrite !group_or_0_read.
  destruct (groups_lookup h m sec) as (-> & -> & -> & _).
  unfold convert.
  now destruct (refused limit h), (refused limit m), (refused limit sec).
Qed.

Lemma convert_returns limit h m sec v :
  convert limit h m sec = Returns v ->
  v = value h * 3600 + value m * 60 + value sec.
Proof.
  unfold convert.
  destruct (refused limit h), (refused limit m), (refused limit sec);
    try discriminate.
  now intros [= <-].
Qed.

Lemma convert_raises limit h m sec :
  (exists n, convert limit h m sec = ValueError n)
  <-> refused limit h = true \/ refused limit m = true \/
      refused limit sec = true.
Proof.
  unfold convert.
  destruct (refused limit h), (refused limit m), (refused limit sec);
    split; eauto; try (intros [n [=]]); intuition discriminate.
Qed.

Lemma over_mono limit n n' :
  (n <= n')%nat -> over limit n = true -> over limit n' = true.
Proof.
  unfold over. intros Hle H.
  apply andb_prop in H as [H H3]. apply andb_prop in H as [H1 H2].
  apply Nat.ltb_lt in H1, H3.
  rewrite H2. rewrite (proj2 (Nat.ltb_lt 640 n')) by lia.
  rewrite (proj2 (Nat.ltb_lt limit n')) by lia. reflexivity.
Qed.

Lemma component_within (h m sec : option string) (rest : string) (d : option string) :
  d = h \/ d = m \/ d = sec ->
  (digits_of d <= String.length (token h m sec +:+ rest))%nat.
Proof.
  unfold token, render_component.
  intros [-> | [-> | ->]]; destruct h, m, sec; cbn [digits_of];
    rewrite ?length_append; cbn [String.length]; lia.
Qed.

Lemma refused_within limit (h m sec : option string) (rest : string) d :
  d = h \/ d = m \/ d = sec ->
  over limit (String.length (token h m sec +:+ rest)) = false ->
  refused limit d = false.
Proof.
  intros Hd Hs. pose proof (component_within h m sec rest d Hd) as Hle.
  destruct d as [ds|]; [| reflexivity]. cbn [refused digits_of] in *.
  destruct (over limit (String.length ds)) eqn:E; [| reflexivity].
  now rewrite (over_mono _ _ _ Hle E) in Hs.
Qed.

(** When a token is the longest well-formed prefix of the text, the
    scanner reads exactly its components and leaves what follows. *)
Lemma scan_longest_token (h m s : option string) (rest : string) :
  valid_component h -> valid_component m -> valid_component s ->
  (forall p, valid_token p ->
             String.prefix p (token h m s +:+ rest) = true ->
             (String.length p <= String.length (token h m s))%nat) ->
  scan (token h m s +:+ rest) = Some (h, m, s, rest).
Proof.
  intros Hh Hm Hs Hmax.
  destruct (scan_token h m s rest Hh Hm Hs)
    as [E | (h' & m' & s' & r' & E & Hlt)]; [exact E |].
  exfalso. pose proof (scan_spec (token h m s +:+ rest)) as Hsp.
  rewrite E in Hsp. destruct Hsp as (Hh' & Hm' & Hs' & Heq).
  assert (Hp : valid_token (token h' m' s')) by (exists h', m', s'; auto).
  specialize (Hmax _ Hp). rewrite Heq in Hmax at 1.
  specialize (Hmax (prefix_append _ _)).
  apply (f_equal String.length) in Heq. rewrite !length_append in Heq. lia.
Qed.

Lemma parse_duration_agrees limit (d : option string) (v : Z) :
  DurationLimit.parse_duration limit d = Returns v ->
  0 <= v /\ v = Duration.parse_duration d.
Proof.
  intros H. assert (E : v = Duration.parse_duration d).
  { destruct d as [s|]; [| now injection H as <-].
    rewrite parse_duration_convert in H. rewrite parse_duration_scan.
    destruct (scan s) as [[[[h m] sec] rest]|]; [| now injection H as <-].
    now apply convert_returns in H. }
  split; [| exact E]. rewrite E. apply parse_duration_nonneg.
Qed.

Lemma parse_duration_raises limit (s : string) :
  (exists n, DurationLimit.parse_duration limit (Some s) = ValueError n)
  <-> exists gs rest g d,
        re_match pattern s = Some (gs, rest) /\ gs !! g = Some d /\
        over limit (String.length d) = true.
Proof.
  rewrite parse_duration_convert, re_match_scan.
  destruct (scan s) as [[[[h m] sec] rest]|].
  - rewrite convert_raises.
    destruct (groups_lookup h m sec) as (H1 & H2 & H3 & Hall). split.
    + intros [H | [H | H]];
        [destruct h as [d|] | destruct m as [d|] | destruct sec as [d|]];
        try discriminate; eexists _, rest, _, d;
        (split; [reflexivity | split; [eassumption | exact H]]).
    + intros (gs & rest' & g & d & [= <- <-] & Hg & Hover).
      destruct (Hall g d Hg) as [[_ ->] | [[_ ->] | [_ ->]]]; auto.
  - split; [intros [n [=]] | intros (gs & rest & g & d & [=] & _)].
Qed.

Lemma parse_duration_short limit (s : string) :
  over limit (String.length s) = false ->
  exists v, DurationLimit.parse_duration limit (Some s) = Returns v.
Proof.
  intros Hs. rewrite parse_duration_convert. pose proof (scan_spec s) as H.
  destruct (scan s) as [[[[h m] sec] rest]|]; [| now exists 0].
  destruct H as (_ & _ & _ & ->). unfold convert.
  rewrite (refused_within limit h m sec rest h), (refused_within limit h m sec rest m),
    (refused_within limit h m sec rest sec) by auto.
  eauto.
Qed.

Lemma parse_duration_no_prefix' limit (s : string) :
  String.prefix "PT" s = false ->
  DurationLimit.parse_duration limit (Some s) = Returns 0.
Proof.
  intros H. rewrite parse_duration_convert. pose proof (scan_spec s) as Hs.
  destruct (scan s) as [[[[h m] sec] rest]|]; [| reflexivity].
  destruct Hs as (_ & _ & _ & ->). unfold token in H.
  rewrite !append_assoc in H. now rewrite prefix_PT in H.
Qed.

Lemma parse_duration_components limit (h m s : option string) (rest : string) :
  valid_component h -> valid_component m -> valid_component s ->
  (forall p, valid_token p ->
             String.prefix p (token h m s +:+ rest) = true ->
             (String.length p <= String.length (token h m s))%nat) ->
  DurationLimit.parse_duration limit (Some (token h m s +:+ rest))
  = convert limit h m s.
Proof.
  intros Hh Hm Hs Hmax.
  now rewrite parse_duration_convert, scan_longest_token.
Qed.

Lemma parse_duration_trailing' limit (tok rest : string) :
  valid_token tok ->
  (forall p, valid_token p -> String.prefix p (tok +:+ rest) = true ->
             (String.length p <= String.length tok)%nat) ->
  DurationLimit.parse_duration limit (Some (tok +:+ rest))
  = DurationLimit.parse_duration limit (Some tok).
Proof.
  intros (h & m & s & Hh & Hm & Hs & ->) Hmax.
  rewrite parse_duration_components by assumption.
  rewrite parse_duration_convert, scan_token_exact by assumption.
  reflexivity.
Qed.

(** C10, as stated, fails: on a token whose seconds numeral has 4301
    digits the conversion [int] raises [ValueError] under the
    interpreter's default limit, and [parse_duration] with it. *)
Lemma long_numeral_raises :
  String.length DurationLimit.long_token = 4304%nat /\
  String.prefix "PT" DurationLimit.long_token = true /\
  DurationLimit.parse_duration DurationLimit.default_max_str_digits
    (Some DurationLimit.long_token)
  = ValueError 4301 /\
  forall v,
    DurationLimit.parse_duration DurationLimit.default_max_str_digits
      (Some DurationLimit.long_token)
    <> Returns v.
Proof.
  assert (E : DurationLimit.parse_duration DurationLimit.default_max_str_digits
                (Some DurationLimit.long_token) = ValueError 4301)
    by (vm_compute; reflexivity).
  split; [vm_compute; reflexivity |].
  split; [vm_compute; reflexivity |].
  split; [exact E |].
  intros v. rewrite E. discriminate.
Qed.

(** C10, as the code has it.  [parse_duration] does not return on every
    text: it raises the [ValueError] of [int] exactly when one of the
    numerals the pattern captured has more digits than [int] converts
    (4300 unless the interpreter is set otherwise, no limit when the
    setting is 0).  So it returns on every text that is itself within
    the limit.  When it returns, the result is not negative and is the
    sum of the components read.  An absent or empty input and a text
    that does not begin with [PT] yield 0.  Whatever follows the longest
    well-formed [PT[nH][nM][nS]] prefix is ignored: the outcome is that
    of the conversions of the prefix's own components, whether a value
    or the refusal of one of them. *)
Theorem parse_duration_returns (max_str_digits : nat) :
  (forall (d : option string) (v : Z),
     DurationLimit.parse_duration max_str_digits d = Returns v ->
     0 <= v /\ v = Duration.parse_duration d) /\
  (forall s : string,
     (exists n, DurationLimit.parse_duration max_str_digits (Some s)
                = ValueError n)
     <-> exists gs rest g d,
           re_match pattern s = Some (gs, rest) /\ gs !! g = Some d /\
           over max_str_digits (String.length d) = true) /\
  (forall s : string,
     over max_str_digits (String.length s) = false ->
     exists v, DurationLimit.parse_duration max_str_digits (Some s)
               = Returns v) /\
  DurationLimit.parse_duration max_str_digits None = Returns 0 /\
  DurationLimit.parse_duration max_str_digits (Some "") = Returns 0 /\
  (forall s : string,
     String.prefix "PT" s = false ->
     DurationLimit.parse_duration max_str_digits (Some s) = Returns 0) /\
  (forall (h m s : option string) (rest : string),
     valid_component h -> valid_component m -> valid_component s ->
     (forall p, valid_token p ->
                String.prefix p (token h m s +:+ rest) = true ->
                (String.length p <= String.length (token h m s))%nat) ->
     DurationLimit.parse_duration max_str_digits
       (Some (token h m s +:+ rest))
     = convert max_str_digits h m s) /\
  (forall tok rest : string,
     valid_token tok ->
     (forall p, valid_token p -> String.prefix p (tok +:+ rest) = true ->
                (String.length p <= String.length tok)%nat) ->
     DurationLimit.parse_duration max_str_digits (Some (tok +:+ rest))
     = DurationLimit.parse_duration max_str_digits (Some tok)).
Proof.
  split; [exact (parse_duration_agrees max_str_digits) |].
  split; [exact (parse_duration_raises max_str_digits) |].
  split; [exact (parse_duration_short max_str_digits) |].
  split; [reflexivity |]. split; [reflexivity |].
  split; [exact (parse_duration_no_prefix' max_str_digits) |].
  split; [exact (parse_duration_components max_str_digits) |].
  exact (parse_duration_trailing' max_str_digits).
Qed.

Lemma parse_duration_returns_witness :
  DurationLimit.parse_duration 4300
    (Some (token None (Some "5") None +:+ "xyz"))
  = Returns 300 /\
  DurationLimit.parse_duration 4300 (Some "5M") = Returns 0 /\
  (exists v, DurationLimit.parse_duration 4300 (Some "PT1H2M3S") = Returns v) /\
  (forall v, DurationLimit.parse_duration 4300 (Some "PT1H2M3S") = Returns v ->
             0 <= v /\ v = 3723) /\
  exists gs rest g d,
    re_match pattern DurationLimit.long_token = Some (gs, rest) /\
    gs !! g = Some d /\ over 4300 (String.length d) = true.
Proof.
  destruct (parse_duration_returns 4300)
    as (Hagree & Hraises & Hshort & _ & _ & Hprefix & Hcomponents & _).
  split; [| split; [| split; [| split]]].
  - rewrite Hcomponents; [reflexivity | exact I | | exact I |].
    + split; [discriminate | reflexivity].
    + intros p Hp Hpre. apply (scan_longest _ _ Hp) in Hpre.
      change (scan (token None (Some "5") None +:+ "xyz"))
        with (Some (@None string, Some "5", @None string, "xyz")) in Hpre.
      change (String.length (token None (Some "5") None +:+ "xyz"))
        with 7%nat in Hpre.
      change (String.length (token None (Some "5") None)) with 4%nat.
      cbn [String.length] in Hpre. lia.
  - apply Hprefix. reflexivity.
  - apply Hshort. reflexivity.
  - intros v Hv. destruct (Hagree _ _ Hv) as [H0 ->]. split; [exact H0 |].
    vm_compute. reflexivity.
  - apply Hraises. exists 4301%nat. vm_compute. reflexivity.
Defined.

End DurationLimitFacts.
